(** * Campus map: the routing core of [script.js]

    A shallow embedding of the graph part of the [CampusMap] class
    (default data, adjacency construction, [dijkstra], [generateSteps],
    [findRoute], the [dragend] handler installed by [addMarkers] and
    [importGraph]) together with the properties of the routing engine,
    followed by the selectors ([populateSelects]), the search box
    ([buildSearchIndex], [handleSearch]), the markers that
    [goToLocation] opens, and the page as a whole under the handlers
    that [initUI] installs.

    Modelling conventions.
    - Waypoint identifiers and names are strings.
    - Numbers (edge weights, distances, coordinates) are exact rationals
      ([Q]): [+] and [<] are those of the rationals, and [Math.round]
      rounds to the nearest integer, halves upwards.  The rounding error
      of double arithmetic is not modelled; on whole-number weights, as
      in the data the program ships, double arithmetic is exact and the
      model coincides with it.  Zero and negative weights are
      representable, so that the positivity assumption of a theorem is a
      real hypothesis.  The values a distance slot can hold are collected
      in [num]: a finite number, [Infinity], and [NaN] (what an absent
      slot, [undefined], turns into under [+] and [<]).
    - The objects [graph], [distances] and [previous] of [dijkstra] are
      used as dictionaries keyed by identifier: they are finite maps
      ([gmap string _]).  Identifiers are taken to be ordinary own keys
      (the inherited names of [Object.prototype] are outside the model).
    - [unvisited] is a JavaScript [Set], iterated in insertion order: a
      duplicate-free list.
    - Exceptions are explicit ([Throw TypeError]); the unbounded
      [while (current !== null)] walk along [previous] gets a bound that
      is shown to be exact ([reconstruct_bound_exact]).
    - [toLowerCase] and [trim] are parameters of the search box: its
      properties hold whatever the two functions do to a string.  The
      examples instantiate them on ASCII text.
    - A marker is identified by the position, in the node list, of the
      waypoint it was made for: that is the waypoint its [dragend]
      handler moves. *)

From Stdlib Require Import ZArith QArith Qround Lqa.
From stdpp Require Import gmap strings list fin_maps.

Local Open Scope string_scope.
Local Open Scope list_scope.
Local Open Scope Q_scope.

#[local] Infix "≤" := Qle : Q_scope.

(** ** Data model *)

Module Node.
Record t := mk { id : string; name : string; lat : Q; lng : Q }.
End Node.

Module Edge.
Record t := mk { a : string; b : string; dist : Q }.
End Edge.

(** Values of the [metadata] object of the shipped data: texts and one
    coordinate pair. *)
Inductive meta :=
| MText (s : string)
| MPoint (lat lng : Q).

Record Graph := {
  nodes : list Node.t;
  edges : list Edge.t;
  metadata : option (list (string * meta))
}.

(** [getDefaultGraphData] *)
Definition getDefaultGraphData : Graph := {|
  nodes := [
    Node.mk "main_gate" "Main Gate" 13.1950 77.7060;
    Node.mk "entrance_junction" "Entrance Junction" 13.1955 77.7065;
    Node.mk "admin_block1" "Admin Block 1" 13.1960 77.7070;
    Node.mk "hostel1" "Hostel 1" 13.1965 77.7075;
    Node.mk "academic_block1" "Academic Block 1" 13.1970 77.7070;
    Node.mk "academic_block2" "Academic Block 2" 13.1970 77.7065;
    Node.mk "library" "Library" 13.1970 77.7060;
    Node.mk "cafeteria" "Cafeteria" 13.1965 77.7055;
    Node.mk "sports_complex" "Sports Complex" 13.1975 77.7067;
    Node.mk "auditorium" "Auditorium" 13.1962 77.7062;
    Node.mk "parking_area" "Parking Area" 13.1952 77.7062;
    Node.mk "north_junction" "North Junction" 13.1972 77.7067;
    Node.mk "east_junction" "East Junction" 13.1967 77.7072;
    Node.mk "south_junction" "South Junction" 13.1962 77.7067;
    Node.mk "west_junction" "West Junction" 13.1967 77.7062;
    Node.mk "center_junction" "Center Junction" 13.1967 77.7067 ];
  edges := [
    Edge.mk "main_gate" "entrance_junction" 120;
    Edge.mk "entrance_junction" "parking_area" 80;
    Edge.mk "entrance_junction" "south_junction" 150;
    Edge.mk "south_junction" "west_junction" 180;
    Edge.mk "west_junction" "north_junction" 180;
    Edge.mk "north_junction" "east_junction" 180;
    Edge.mk "east_junction" "south_junction" 180;
    Edge.mk "south_junction" "center_junction" 90;
    Edge.mk "west_junction" "center_junction" 90;
    Edge.mk "north_junction" "center_junction" 90;
    Edge.mk "east_junction" "center_junction" 90;
    Edge.mk "south_junction" "admin_block1" 100;
    Edge.mk "south_junction" "auditorium" 80;
    Edge.mk "east_junction" "hostel1" 120;
    Edge.mk "east_junction" "academic_block1" 100;
    Edge.mk "north_junction" "academic_block1" 80;
    Edge.mk "north_junction" "academic_block2" 100;
    Edge.mk "north_junction" "sports_complex" 150;
    Edge.mk "west_junction" "library" 100;
    Edge.mk "west_junction" "cafeteria" 120;
    Edge.mk "admin_block1" "auditorium" 90;
    Edge.mk "hostel1" "academic_block1" 140;
    Edge.mk "academic_block1" "academic_block2" 80;
    Edge.mk "academic_block2" "library" 80;
    Edge.mk "library" "cafeteria" 120;
    Edge.mk "cafeteria" "parking_area" 160;
    Edge.mk "center_junction" "auditorium" 70;
    Edge.mk "sports_complex" "academic_block1" 120;
    Edge.mk "sports_complex" "academic_block2" 100 ];
  metadata := Some [
    ("source", MText "updated-circular-layout");
    ("centerApprox", MPoint 13.1967 77.7067);
    ("lastUpdated", MText "2025-01-27");
    ("description", MText "Chanakya University campus with circular road design and central junction system");
    ("layout", MText "circular_road_with_center_hub") ]
|}.

(** ** JavaScript values used by the routing code *)

(** The numbers a slot of [distances] can contribute to [+] and [<]. *)
Inductive num :=
| Fin (q : Q)
| Infinity
| NaN.

(** The references stored in [previous] and collected in [path]:
    [null], an identifier, or [undefined] (an absent slot). *)
Inductive ref :=
| null
| undefined
| str (s : string).

#[global] Instance Q_eq_dec : EqDecision Q.
Proof. solve_decision. Defined.
#[global] Instance Qlt_dec (x y : Q) : Decision (x < y).
Proof. destruct (Qlt_le_dec x y); [left|right]; [done|by apply Qle_not_lt]. Defined.
#[global] Instance num_eq_dec : EqDecision num.
Proof. solve_decision. Defined.
#[global] Instance ref_eq_dec : EqDecision ref.
Proof. solve_decision. Defined.

(** [x + y] on numbers. *)
Definition num_add (x y : num) : num :=
  match x, y with
  | Fin p, Fin q => Fin (p + q)
  | NaN, _ | _, NaN => NaN
  | _, _ => Infinity
  end.

(** [x < y]; every comparison with [NaN] is false. *)
Definition num_lt (x y : num) : bool :=
  match x, y with
  | Fin p, Fin q => bool_decide (p < q)
  | Fin _, Infinity => true
  | _, _ => false
  end.

Arguments num_add !x !y /.
Arguments num_lt !x !y /.

(** [x === Infinity] *)
Definition is_Infinity (x : num) : bool :=
  match x with Infinity => true | _ => false end.

(** [Math.round]: the nearest integer, the upper one of two that are
    equally near; [Infinity] and [NaN] stay. *)
Definition Math_round (x : num) : num :=
  match x with
  | Fin q => Fin (inject_Z (Qfloor (q + (1 # 2))))
  | _ => x
  end.

(** The property key a reference is converted to by [previous[current]]. *)
Definition to_key (r : ref) : string :=
  match r with
  | str s => s
  | undefined => "undefined"
  | null => "null"
  end.

(** Completion of a call: a value, an uncaught exception, or no return. *)
Inductive exn := TypeError | Error (msg : string).

Inductive completion (A : Type) :=
| Normal (x : A)
| Throw (e : exn)
| Diverges.
Arguments Normal {A} x.
Arguments Throw {A} e.
Arguments Diverges {A}.

#[global] Instance completion_ret : MRet completion := λ A x, Normal x.
#[global] Instance completion_bind : MBind completion := λ A B k c,
  match c with
  | Normal x => k x
  | Throw e => Throw e
  | Diverges => Diverges
  end.

(** ** [dijkstra]: the adjacency list *)

(** One entry [{ node, distance }] of a neighbour list. *)
Record Neighbor := { node : string; distance : Q }.

(** [graph[node.id] = []] for every waypoint. *)
Definition empty_adjacency (ns : list Node.t) : gmap string (list Neighbor) :=
  foldl (λ graph n, <[Node.id n := []]> graph) ∅ ns.

(** [graph[k].push(x)]; [graph[k]] is [undefined] for a key that names no
    waypoint, and the call of [push] on it throws. *)
Definition push (graph : gmap string (list Neighbor)) (k : string) (x : Neighbor)
  : completion (gmap string (list Neighbor)) :=
  match graph !! k with
  | Some l => Normal (<[k := l ++ [x]]> graph)
  | None => Throw TypeError
  end.

Definition add_edge (graph : gmap string (list Neighbor)) (e : Edge.t)
  : completion (gmap string (list Neighbor)) :=
  graph1 ← push graph (Edge.a e) {| node := Edge.b e; distance := Edge.dist e |};
  push graph1 (Edge.b e) {| node := Edge.a e; distance := Edge.dist e |}.

(** [this.graph.edges.forEach(...)], stopped by the first exception. *)
Fixpoint add_edges (graph : gmap string (list Neighbor)) (es : list Edge.t)
  : completion (gmap string (list Neighbor)) :=
  match es with
  | [] => Normal graph
  | e :: es' => graph1 ← add_edge graph e; add_edges graph1 es'
  end.

Definition build_adjacency (g : Graph) : completion (gmap string (list Neighbor)) :=
  add_edges (empty_adjacency (nodes g)) (edges g).

(** ** [dijkstra]: the search *)

(** [distances[k]]; an absent slot reads [undefined], which is [NaN] in
    every use the function makes of it. *)
Definition dist_of (distances : gmap string num) (k : string) : num :=
  default NaN (distances !! k).

(** [previous[k]] *)
Definition prev_of (previous : gmap string ref) (k : string) : ref :=
  default undefined (previous !! k).

(** [unvisited.add(k)] on an insertion-ordered set. *)
Definition set_add (k : string) (s : list string) : list string :=
  if decide (k ∈ s) then s else s ++ [k].

(** [unvisited.delete(k)] *)
Definition set_delete (k : string) (s : list string) : list string :=
  filter (λ x, x ≠ k) s.

Record Search := {
  distances : gmap string num;
  previous : gmap string ref;
  unvisited : list string
}.

(** The initialisation loop followed by [distances[startId] = 0]. *)
Definition init_node (st : Search) (n : Node.t) : Search := {|
  distances := <[Node.id n := Infinity]> (distances st);
  previous := <[Node.id n := null]> (previous st);
  unvisited := set_add (Node.id n) (unvisited st)
|}.

Definition init_search (ns : list Node.t) (startId : string) : Search :=
  let st := foldl init_node {| distances := ∅; previous := ∅; unvisited := [] |} ns in
  {| distances := <[startId := Fin 0]> (distances st);
     previous := previous st;
     unvisited := unvisited st |}.

(** One turn of [for (const node of unvisited)] on the pair
    [(current, minDistance)]. *)
Definition pick (distances : gmap string num) (acc : option string * num)
    (node : string) : option string * num :=
  if num_lt (dist_of distances node) acc.2
  then (Some node, dist_of distances node)
  else acc.

Definition find_min (distances : gmap string num) (unvisited : list string)
  : option string * num :=
  foldl (pick distances) (None, Infinity) unvisited.

(** The body of [graph[current].forEach(neighbor => ...)]; [distances[current]]
    is read again for every neighbour. *)
Definition relax (current : string) (dp : gmap string num * gmap string ref)
    (neighbor : Neighbor) : gmap string num * gmap string ref :=
  let alt := num_add (dist_of dp.1 current) (Fin (distance neighbor)) in
  if num_lt alt (dist_of dp.1 (node neighbor))
  then (<[node neighbor := alt]> dp.1, <[node neighbor := str current]> dp.2)
  else dp.

(** One turn of [while (unvisited.size > 0)]: [None] is [break]. *)
Definition visit (graph : gmap string (list Neighbor)) (st : Search) : option Search :=
  match find_min (distances st) (unvisited st) with
  | (None, _) => None
  | (Some current, _) =>
      if is_Infinity (dist_of (distances st) current) then None
      else
        let dp := match graph !! current with
                  | Some l => foldl (relax current) (distances st, previous st) l
                  | None => (distances st, previous st)
                  end in
        Some {| distances := dp.1; previous := dp.2;
                unvisited := set_delete current (unvisited st) |}
  end.

(** The [while] loop.  Every turn that does not [break] deletes one
    element of [unvisited], so [length unvisited] turns are enough
    ([search_loop_fuel]). *)
Fixpoint search_loop (fuel : nat) (graph : gmap string (list Neighbor))
    (st : Search) : Search :=
  match fuel with
  | O => st
  | S fuel' =>
      match unvisited st with
      | [] => st
      | _ :: _ =>
          match visit graph st with
          | None => st
          | Some st' => search_loop fuel' graph st'
          end
      end
  end.

Definition search (graph : gmap string (list Neighbor)) (st : Search) : Search :=
  search_loop (length (unvisited st)) graph st.

(** ** [dijkstra]: path reconstruction and [generateSteps] *)

(** [while (current !== null) { path.unshift(current); current = previous[current]; }]
    [None] when the bound runs out. *)
Fixpoint reconstruct (fuel : nat) (previous : gmap string ref)
    (current : ref) (path : list ref) : option (list ref) :=
  match current with
  | null => Some path
  | _ =>
      match fuel with
      | O => None
      | S fuel' =>
          reconstruct fuel' previous (prev_of previous (to_key current)) (current :: path)
      end
  end.

Record Step := {
  from : string;
  to : string;
  step_distance : Q;
  description : string
}.

(** [this.graph.nodes.find(n => n.id === r)]: no waypoint is strictly equal
    to [undefined] or [null]. *)
Definition find_node (ns : list Node.t) (r : ref) : option Node.t :=
  match r with
  | str s => List.find (λ n, bool_decide (Node.id n = s)) ns
  | _ => None
  end.

(** [this.graph.edges.find(e => (e.a === from.id && e.b === to.id) || (e.b === from.id && e.a === to.id))] *)
Definition find_edge (es : list Edge.t) (u v : string) : option Edge.t :=
  List.find (λ e, bool_decide (Edge.a e = u) && bool_decide (Edge.b e = v)
               || bool_decide (Edge.b e = u) && bool_decide (Edge.a e = v)) es.

(** [generateSteps]: when [from] or [to] is [undefined], reading its
    [id] or [name] throws. *)
Fixpoint generateSteps (g : Graph) (path : list ref) : completion (list Step) :=
  match path with
  | r1 :: (r2 :: _) as rest =>
      match find_node (nodes g) r1, find_node (nodes g) r2 with
      | Some n1, Some n2 =>
          steps ← generateSteps g rest;
          mret ({| from := Node.name n1;
                   to := Node.name n2;
                   step_distance :=
                     match find_edge (edges g) (Node.id n1) (Node.id n2) with
                     | Some e => Edge.dist e
                     | None => 0
                     end;
                   description := "Head towards " +:+ Node.name n2 |} :: steps)
      | _, _ => Throw TypeError
      end
  | _ => Normal []
  end.

Record Route := {
  path : list ref;
  route_distance : num;
  steps : list Step
}.

(** [dijkstra(startId, endId)]; [Normal None] is [return null]. *)
Definition dijkstra (g : Graph) (startId endId : string) : completion (option Route) :=
  graph ← build_adjacency g;
  let st := search graph (init_search (nodes g) startId) in
  if is_Infinity (dist_of (distances st) endId) then Normal None
  else
    match reconstruct (S (size (previous st))) (previous st) (str endId) [] with
    | None => Diverges
    | Some path =>
        steps ← generateSteps g path;
        mret (Some {| path := path;
                      route_distance := Math_round (dist_of (distances st) endId);
                      steps := steps |})
    end.

(** ** The application object *)

Inductive toast_type := success | warning | error | info.

(** Toast texts; the one of a found route embeds the route's distance. *)
Inductive message :=
| Text (s : string)
| RouteFound (distance : num).

Record Toast := { toast_message : message; toast_kind : toast_type }.

(** The fields of [CampusMap] and of the page that the graph operations
    read or write: the graph, the drawn route (its polyline), the route
    panel, the two selectors, the admin flag, and the toasts shown so
    far.  The Leaflet map, the markers and the search index are display
    state and are left out. *)
Record CampusMap := {
  graph : Graph;
  currentRoute : option (list (Q * Q));
  routeOutput : option Route;
  startSelect : string;
  endSelect : string;
  isAdminMode : bool;
  toasts : list Toast
}.

(** [showToast(message, type)] *)
Definition showToast (st : CampusMap) (m : message) (k : toast_type) : CampusMap :=
  {| graph := graph st;
     currentRoute := currentRoute st;
     routeOutput := routeOutput st;
     startSelect := startSelect st;
     endSelect := endSelect st;
     isAdminMode := isAdminMode st;
     toasts := toasts st ++ [{| toast_message := m; toast_kind := k |}] |}.

(** The user's choice in the two selectors. *)
Definition choose (startId endId : string) (st : CampusMap) : CampusMap :=
  {| graph := graph st;
     currentRoute := currentRoute st;
     routeOutput := routeOutput st;
     startSelect := startId;
     endSelect := endId;
     isAdminMode := isAdminMode st;
     toasts := toasts st |}.

(** [clearRoute]: the polyline goes, the panel shows its placeholder, the
    selectors are reset. *)
Definition clearRoute (st : CampusMap) : CampusMap :=
  {| graph := graph st;
     currentRoute := None;
     routeOutput := None;
     startSelect := "";
     endSelect := "";
     isAdminMode := isAdminMode st;
     toasts := toasts st |}.

(** [routeData.path.map(nodeId => ...)]: reading [lat] of a waypoint
    that is not found throws. *)
Fixpoint routeCoords (g : Graph) (path : list ref) : completion (list (Q * Q)) :=
  match path with
  | [] => Normal []
  | r :: rest =>
      match find_node (nodes g) r with
      | Some n =>
          coords ← routeCoords g rest;
          mret ((Node.lat n, Node.lng n) :: coords)
      | None => Throw TypeError
      end
  end.

(** [displayRoute] followed by [displayRouteInfo]; the start and end
    markers are those of [path[0]] and of the last element. *)
Definition displayRoute (st : CampusMap) (routeData : Route) : completion CampusMap :=
  routeCoords ← routeCoords (graph st) (path routeData);
  match path routeData with
  | [] => Throw TypeError
  | _ :: _ =>
      Normal {| graph := graph st;
                currentRoute := Some routeCoords;
                routeOutput := Some routeData;
                startSelect := startSelect st;
                endSelect := endSelect st;
                isAdminMode := isAdminMode st;
                toasts := toasts st |}
  end.

(** [findRoute]: [!startId] holds of the empty string only. *)
Definition findRoute (st : CampusMap) : completion CampusMap :=
  let startId := startSelect st in
  let endId := endSelect st in
  if bool_decide (startId = "") || bool_decide (endId = "") then
    Normal (showToast st (Text "Please select both start and end locations") warning)
  else if bool_decide (startId = endId) then
    Normal (showToast st (Text "Start and end locations cannot be the same") warning)
  else
    let st1 := clearRoute st in
    path ← dijkstra (graph st1) startId endId;
    match path with
    | None =>
        Normal (showToast st1 (Text "No route found between selected locations") error)
    | Some routeData =>
        st2 ← displayRoute st1 routeData;
        Normal (showToast st2 (RouteFound (route_distance routeData)) success)
    end.

(** [node.lat = pos.lat; node.lng = pos.lng] *)
Definition move (n : Node.t) (pos : Q * Q) : Node.t :=
  {| Node.id := Node.id n; Node.name := Node.name n;
     Node.lat := pos.1; Node.lng := pos.2 |}.

Definition positionUpdated (n : Node.t) : message :=
  Text (Node.name n +:+ " position updated").

(** The [dragend] handler that [addMarkers] installs on the marker of the
    [i]-th waypoint: the closure holds that waypoint object itself, so
    the assignment lands in [this.graph.nodes[i]].  Outside admin mode
    the handler does nothing. *)
Definition dragend (st : CampusMap) (i : nat) (pos : Q * Q) : CampusMap :=
  match nodes (graph st) !! i with
  | Some n =>
      if isAdminMode st then
        showToast
          {| graph := {| nodes := <[i := move n pos]> (nodes (graph st));
                         edges := edges (graph st);
                         metadata := metadata (graph st) |};
             currentRoute := currentRoute st;
             routeOutput := routeOutput st;
             startSelect := startSelect st;
             endSelect := endSelect st;
             isAdminMode := isAdminMode st;
             toasts := toasts st |}
          (positionUpdated n) success
      else st
  | None => st
  end.

(** [toggleAdminMode] *)
Definition toggleAdminMode (st : CampusMap) : CampusMap :=
  let st1 :=
    {| graph := graph st;
       currentRoute := currentRoute st;
       routeOutput := routeOutput st;
       startSelect := startSelect st;
       endSelect := endSelect st;
       isAdminMode := negb (isAdminMode st);
       toasts := toasts st |} in
  if isAdminMode st1
  then showToast st1
         (Text "Admin mode enabled. You can now drag markers to adjust positions.") warning
  else showToast st1 (Text "Admin mode disabled") success.

(** ** [importGraph] *)

(** What [JSON.parse] yields for a graph file: the two collections may be
    missing. *)
Record Snapshot := {
  snapshot_nodes : option (list Node.t);
  snapshot_edges : option (list Edge.t);
  snapshot_metadata : option (list (string * meta))
}.

(** A chosen file: text that does not parse as an object, or a snapshot. *)
Inductive File :=
| Unparsable
| Parsed (newGraph : Snapshot).

(** The [try] block, up to the replacement of the graph. *)
Definition parseGraph (file : File) : completion Graph :=
  match file with
  | Unparsable => Throw (Error "JSON.parse")
  | Parsed newGraph =>
      match snapshot_nodes newGraph, snapshot_edges newGraph with
      | Some ns, Some es =>
          Normal {| nodes := ns; edges := es; metadata := snapshot_metadata newGraph |}
      | _, _ => Throw (Error "Invalid graph structure")
      end
  end.

(** [importGraph(file)]: [None] is [!file]; the [catch] clause toasts. *)
Definition importGraph (st : CampusMap) (file : option File) : CampusMap :=
  match file with
  | None => st
  | Some f =>
      match parseGraph f with
      | Normal newGraph =>
          let st1 :=
            clearRoute
              {| graph := newGraph;
                 currentRoute := currentRoute st;
                 routeOutput := routeOutput st;
                 startSelect := startSelect st;
                 endSelect := endSelect st;
                 isAdminMode := isAdminMode st;
                 toasts := toasts st |} in
          showToast st1 (Text "Graph data imported successfully") success
      | _ => showToast st (Text "Error importing graph data") error
      end
  end.

(** The application once the default data is loaded. *)
Definition initial : CampusMap :=
  {| graph := getDefaultGraphData;
     currentRoute := None;
     routeOutput := None;
     startSelect := "";
     endSelect := "";
     isAdminMode := false;
     toasts := [{| toast_message := Text "Campus map loaded successfully!";
                   toast_kind := success |}] |}.

(** ** Specification vocabulary *)

Definition ids (g : Graph) : list string := Node.id <$> nodes g.

(** Edge [e] joins [u] and [v], in either direction. *)
Definition joins (e : Edge.t) (u v : string) : Prop :=
  (Edge.a e = u ∧ Edge.b e = v) ∨ (Edge.b e = u ∧ Edge.a e = v).

(** Some edge of weight [w] joins [u] and [v]. *)
Definition joined (g : Graph) (u v : string) (w : Q) : Prop :=
  ∃ e, e ∈ edges g ∧ joins e u v ∧ Edge.dist e = w.

(** [walk g u v m]: a walk from [u] to [v] along edges of [g] whose
    weights add up to the rational number [m], however [m] is written
    ([walk_eq]). *)
Inductive walk (g : Graph) : string → string → Q → Prop :=
| walk_here u : walk g u u 0
| walk_step u v t w m : joined g u v w → walk g v t m → walk g u t (w + m)
| walk_eq u v m m' : walk g u v m → m == m' → walk g u v m'.

(** [m] is the least total weight of a walk from [u] to [v]. *)
Definition shortest (g : Graph) (u v : string) (m : Q) : Prop :=
  walk g u v m ∧ ∀ m', walk g u v m' → m ≤ m'.

Definition endpoints_exist (g : Graph) : Prop :=
  Forall (λ e, Edge.a e ∈ ids g ∧ Edge.b e ∈ ids g) (edges g).

Definition positive_weights (g : Graph) : Prop :=
  Forall (λ e, 0 < Edge.dist e) (edges g).

Definition valid_graph (g : Graph) : Prop :=
  endpoints_exist g ∧ positive_weights g.

#[global] Instance endpoints_exist_dec g : Decision (endpoints_exist g).
Proof. unfold endpoints_exist. apply _. Defined.
#[global] Instance positive_weights_dec g : Decision (positive_weights g).
Proof. unfold positive_weights. apply _. Defined.
#[global] Instance valid_graph_dec g : Decision (valid_graph g).
Proof. unfold valid_graph. apply _. Defined.

(** [distances[endId]] when the search loop has stopped: the exact value
    that [dijkstra] passes to [Math.round]. *)
Definition tentative_distance (g : Graph) (startId endId : string) : completion num :=
  graph ← build_adjacency g;
  mret (dist_of (distances (search graph (init_search (nodes g) startId))) endId).

(** What one edge contributes to the neighbour list of [u], and the whole
    neighbour list of [u], in the order the edge loop pushes. *)
Definition entries (u : string) (e : Edge.t) : list Neighbor :=
  (if decide (Edge.a e = u) then [{| node := Edge.b e; distance := Edge.dist e |}] else [])
  ++ (if decide (Edge.b e = u) then [{| node := Edge.a e; distance := Edge.dist e |}] else []).

Definition neighbours_of (es : list Edge.t) (u : string) : list Neighbor :=
  es ≫= entries u.

(** ** Routes as walks, the chain of [previous], and what a query reads *)

(** [follows g vs m]: consecutive waypoints of the list [vs] are joined
    by edges of [g] whose weights add up to [m]. *)
Inductive follows (g : Graph) : list string → Q → Prop :=
| follows_one v : follows g [v] 0
| follows_snoc vs u v w m :
    last vs = Some u → joined g u v w → follows g vs m →
    follows g (vs ++ [v]) (m + w).

(** The weight of the walk that takes, between consecutive waypoints of
    the list, the first edge joining them. *)
Fixpoint path_weight (g : Graph) (vs : list string) : option Q :=
  match vs with
  | [] => None
  | u :: rest =>
      match rest with
      | [] => Some 0
      | v :: _ =>
          match find_edge (edges g) u v with
          | Some e => (λ m, Edge.dist e + m) <$> path_weight g rest
          | None => None
          end
      end
  end.

(** [dijkstra] reads the identifiers and, for the steps, the names of the
    waypoints; it never reads a coordinate. *)
Definition label (n : Node.t) : string * string := (Node.id n, Node.name n).

(** [reaches p c n]: starting from [current = c], the loop
    [while (current !== null)] leaves after [n] turns. *)
Inductive reaches (p : gmap string ref) : ref → nat → Prop :=
| reaches_null : reaches p null 0
| reaches_next c n :
    c ≠ null → reaches p (prev_of p (to_key c)) n → reaches p c (S n).

(** ** Invariants of the search loop *)

(** The part of the loop invariant that needs no assumption on the
    weights: the slots of the waypoints are defined, and a finite
    tentative distance is the weight of a walk from the start. *)
Record reach_inv (g : Graph) (s : string)
    (d : gmap string num) (p : gmap string ref) : Prop := {
  ri_defined : ∀ u, u ∈ ids g → ∃ n, d !! u = Some n ∧ n ≠ NaN;
  ri_keys : ∀ u, is_Some (p !! u) ↔ u ∈ ids g;
  ri_walk : ∀ v x, dist_of d v = Fin x → walk g s v x
}.

(** The waypoints already taken out of [unvisited]. *)
Definition done (g : Graph) (st : Search) (u : string) : Prop :=
  u ∈ ids g ∧ u ∉ unvisited st.

Record dijkstra_inv (g : Graph) (s : string) (st : Search) : Prop := {
  di_reach : reach_inv g s (distances st) (previous st);
  di_unvisited : ∀ u, u ∈ unvisited st → u ∈ ids g;
  di_start : distances st !! s = Some (Fin 0);
  di_start_prev : previous st !! s = Some null;
  di_nonneg : ∀ v x, dist_of (distances st) v = Fin x → 0 ≤ x;
  di_done_fin : ∀ u, done g st u → ∃ x, dist_of (distances st) u = Fin x;
  di_relaxed : ∀ u v w x,
    done g st u → dist_of (distances st) u = Fin x → joined g u v w →
    ∃ y, dist_of (distances st) v = Fin y ∧ y ≤ x + w;
  di_le : ∀ u v x,
    done g st u → v ∈ unvisited st → dist_of (distances st) u = Fin x →
    num_lt (dist_of (distances st) v) (Fin x) = false;
  di_tree : ∀ v x,
    dist_of (distances st) v = Fin x → v ≠ s →
    ∃ u y w, previous st !! v = Some (str u) ∧ done g st u ∧
             dist_of (distances st) u = Fin y ∧ joined g u v w ∧ x = y + w
}.

(** ** Sample data *)

(** A snapshot with a connection to "annex", which names no waypoint. *)
Definition danglingGraph : Graph := {|
  nodes := [ Node.mk "quad" "Quad" 13.1950 77.7060;
             Node.mk "gym" "Gym" 13.1955 77.7065 ];
  edges := [ Edge.mk "quad" "annex" 50 ];
  metadata := None
|}.


Definition danglingSnapshot : Snapshot := {|
  snapshot_nodes := Some (nodes danglingGraph);
  snapshot_edges := Some (edges danglingGraph);
  snapshot_metadata := None
|}.

(** Weights that are not whole numbers. *)
Definition pathwayGraph : Graph := {|
  nodes := [ Node.mk "quad" "Quad" 13.1950 77.7060;
             Node.mk "gym" "Gym" 13.1955 77.7065;
             Node.mk "pool" "Pool" 13.1960 77.7070 ];
  edges := [ Edge.mk "quad" "gym" 2.5; Edge.mk "gym" "pool" 1.25;
             Edge.mk "quad" "pool" 4.5 ];
  metadata := None
|}.


(** The route the default data gives from the main gate to the library. *)
Definition libraryRoute : Route := {|
  path := [str "main_gate"; str "entrance_junction"; str "parking_area";
           str "cafeteria"; str "library"];
  route_distance := Fin 480;
  steps := [
    {| from := "Main Gate"; to := "Entrance Junction"; step_distance := 120;
       description := "Head towards Entrance Junction" |};
    {| from := "Entrance Junction"; to := "Parking Area"; step_distance := 80;
       description := "Head towards Parking Area" |};
    {| from := "Parking Area"; to := "Cafeteria"; step_distance := 160;
       description := "Head towards Cafeteria" |};
    {| from := "Cafeteria"; to := "Library"; step_distance := 120;
       description := "Head towards Library" |} ]
|}.

(** ** Route steps against route distance *)

#[global] Instance Qeq_decision (x y : Q) : Decision (x == y).
Proof. destruct (Qeq_dec x y); [by left|by right]. Defined.
#[global] Instance joins_dec e u v : Decision (joins e u v).
Proof. unfold joins. apply _. Defined.

(** Connections that join the same pair of waypoints have the same
    weight. *)
Definition single_weight (g : Graph) : Prop :=
  Forall (λ e, Forall (λ e', joins e (Edge.a e') (Edge.b e') →
                             Edge.dist e == Edge.dist e') (edges g)) (edges g).

#[global] Instance single_weight_dec g : Decision (single_weight g).
Proof. unfold single_weight. apply _. Defined.


(** Two connections between the same pair of waypoints, the heavier one
    listed first. *)
Definition parallelGraph : Graph := {|
  nodes := [ Node.mk "quad" "Quad" 13.1950 77.7060;
             Node.mk "gym" "Gym" 13.1955 77.7065 ];
  edges := [ Edge.mk "quad" "gym" 90; Edge.mk "gym" "quad" 50 ];
  metadata := None
|}.

(** ** [populateSelects] *)




(** ** The search box *)

Record SearchItem := { item_id : string; item_name : string; searchText : string }.

(** [s.startsWith(sub)] and [s.includes(sub)] *)
Fixpoint startsWith (s sub : string) {struct sub} : bool :=
  match sub, s with
  | EmptyString, _ => true
  | String c sub', String d s' => bool_decide (c = d) && startsWith s' sub'
  | String _ _, EmptyString => false
  end.

Fixpoint includes (s sub : string) : bool :=
  startsWith s sub ||
  match s with
  | EmptyString => false
  | String _ s' => includes s' sub
  end.

(** The results element: whether it is displayed, and its items, each
    with its [data-id] and its text. *)
Record ResultsElement := { display : bool; innerHTML : list (string * string) }.

(** [buildSearchIndex] and [handleSearch] for given [toLowerCase] and
    [trim]. *)
Section search_box.
Variable toLowerCase : string → string.
Variable trim : string → string.

Definition buildSearchIndex (g : Graph) : list SearchItem :=
  (λ n, {| item_id := Node.id n;
           item_name := Node.name n;
           searchText := toLowerCase (Node.name n) |}) <$> nodes g.

Definition handleSearch (searchIndex : list SearchItem) (query : string)
    (resultsElement : ResultsElement) : ResultsElement :=
  if bool_decide (trim query = "") then
    {| display := false; innerHTML := innerHTML resultsElement |}
  else
    let matches :=
      take 5 (filter (λ item, includes (searchText item) (toLowerCase query) = true)
                     searchIndex) in
    match matches with
    | [] => {| display := false; innerHTML := innerHTML resultsElement |}
    | _ :: _ =>
        {| display := true;
           innerHTML := (λ m, (item_id m, item_name m)) <$> matches |}
    end.
End search_box.

(** A waypoint matches a query when its lower-cased name includes the
    lower-cased query. *)
Definition matches_query (toLowerCase : string → string) (query : string)
    (n : Node.t) : Prop :=
  includes (toLowerCase (Node.name n)) (toLowerCase query) = true.

#[global] Instance matches_query_dec toLowerCase query n :
  Decision (matches_query toLowerCase query n).
Proof. unfold matches_query. apply _. Defined.

(** [toLowerCase] and [trim] on ASCII text. *)
Definition lower_ascii (c : Ascii.ascii) : Ascii.ascii :=
  let n := Ascii.nat_of_ascii c in
  if (65 <=? n)%nat && (n <=? 90)%nat then Ascii.ascii_of_nat (n + 32) else c.

Fixpoint toLowerCase_ascii (s : string) : string :=
  match s with
  | EmptyString => EmptyString
  | String c s' => String (lower_ascii c) (toLowerCase_ascii s')
  end.

Definition is_space (c : Ascii.ascii) : bool :=
  let n := Ascii.nat_of_ascii c in
  (n =? 32)%nat || (9 <=? n)%nat && (n <=? 13)%nat.

Fixpoint trimStart_ascii (s : string) : string :=
  match s with
  | EmptyString => EmptyString
  | String c s' => if is_space c then trimStart_ascii s' else s
  end.

Definition trim_ascii (s : string) : string :=
  String.rev (trimStart_ascii (String.rev (trimStart_ascii s))).

(** ** Markers and [goToLocation] *)

(** [addMarkers]: the marker made for the [i]-th waypoint (the one whose
    [dragend] handler moves that waypoint) is stored under the
    waypoint's identifier, [this.markers[node.id] = marker]; it is
    represented by [i]. *)
Fixpoint add_markers_from (i : nat) (markers : gmap string nat) (ns : list Node.t)
  : gmap string nat :=
  match ns with
  | [] => markers
  | n :: ns' => add_markers_from (S i) (<[Node.id n := i]> markers) ns'
  end.

Definition addMarkers (g : Graph) : gmap string nat :=
  add_markers_from 0 ∅ (nodes g).

(** [goToLocation(nodeId)]: the point the view is set to and the marker
    whose popup opens; [None] when the test [node && this.markers[nodeId]]
    fails and nothing happens. *)
Definition goToLocation (g : Graph) (markers : gmap string nat) (nodeId : string)
  : option ((Q * Q) * nat) :=
  match find_node (nodes g) (str nodeId), markers !! nodeId with
  | Some n, Some marker => Some ((Node.lat n, Node.lng n), marker)
  | _, _ => None
  end.

(** Two waypoints with the same identifier. *)
Definition twinGraph : Graph := {|
  nodes := [ Node.mk "hall" "Old Hall" 13.1950 77.7060;
             Node.mk "hall" "New Hall" 13.1955 77.7065 ];
  edges := [];
  metadata := None
|}.

(** ** Whole numbers *)

Definition whole (q : Q) : Prop := inject_Z (Qfloor q) == q.

Definition whole_weights (g : Graph) : Prop :=
  Forall (λ e, whole (Edge.dist e)) (edges g).

#[global] Instance whole_weights_dec g : Decision (whole_weights g).
Proof. unfold whole_weights, whole. apply _. Defined.

(** [pathwayGraph] with one more connection, a shortcut from the quad
    to the pool. *)
Definition shortcutGraph : Graph := {|
  nodes := nodes pathwayGraph;
  edges := edges pathwayGraph ++ [ Edge.mk "pool" "quad" 3 ];
  metadata := None
|}.

(** A connection of negative weight. *)
Definition downhillGraph : Graph := {|
  nodes := [ Node.mk "quad" "Quad" 13.1950 77.7060;
             Node.mk "gym" "Gym" 13.1955 77.7065 ];
  edges := [ Edge.mk "quad" "gym" (-5) ];
  metadata := None
|}.

(** ** The page *)



Section page.
Variable toLowerCase : string → string.




End page.

(** ** Invariants of the search loop for arbitrary weights *)




(** ** Tactics *)

(** Case analysis on every number in sight, then linear arithmetic. *)
Ltac num_solve :=
  repeat match goal with
  | n : num |- _ => destruct n
  end;
  simpl in *;
  repeat match goal with
  | H : bool_decide _ = true |- _ => apply bool_decide_eq_true in H
  | H : bool_decide _ = false |- _ => apply bool_decide_eq_false in H
  | |- bool_decide _ = true => apply bool_decide_eq_true
  | |- bool_decide _ = false => apply bool_decide_eq_false
  end;
  simplify_eq; try done; try lra.

Ltac by_compute := apply (bool_decide_unpack _); vm_compute; exact I.

(** ** The adjacency list *)

Lemma default_graph_valid : valid_graph getDefaultGraphData.
Proof. by apply (bool_decide_unpack _); vm_compute. Qed.

Lemma elem_of_entries u e nb :
  nb ∈ entries u e ↔ joins e u (node nb) ∧ Edge.dist e = distance nb.
Proof.
  unfold entries, joins. destruct nb as [v w]; simpl.
  rewrite elem_of_app.
  repeat case_decide; rewrite ?list_elem_of_singleton, ?elem_of_nil;
    naive_solver.
Qed.

Lemma elem_of_neighbours_of es u nb :
  nb ∈ neighbours_of es u ↔
  ∃ e, e ∈ es ∧ joins e u (node nb) ∧ Edge.dist e = distance nb.
Proof.
  unfold neighbours_of. rewrite list_elem_of_bind.
  split; intros (e & H1 & H2); exists e.
  - apply elem_of_entries in H1. tauto.
  - split; [apply elem_of_entries|]; tauto.
Qed.

Lemma neighbours_of_joined g u v w :
  {| node := v; distance := w |} ∈ neighbours_of (edges g) u ↔ joined g u v w.
Proof. rewrite elem_of_neighbours_of. unfold joined. simpl. reflexivity. Qed.

Lemma empty_adjacency_lookup ns u :
  empty_adjacency ns !! u = if decide (u ∈ Node.id <$> ns) then Some [] else None.
Proof.
  unfold empty_adjacency.
  enough (∀ m : gmap string (list Neighbor),
    foldl (λ graph n, <[Node.id n := []]> graph) m ns !! u
    = if decide (u ∈ Node.id <$> ns) then Some [] else m !! u) as H
    by (rewrite H; case_decide; [done | apply lookup_empty]).
  induction ns as [|n ns IH]; intros m.
  - done.
  - cbn [foldl]. rewrite IH, fmap_cons.
    destruct (decide (u ∈ Node.id <$> ns)) as [H1|H1];
      destruct (decide (u ∈ Node.id n :: (Node.id <$> ns))) as [H2|H2]; try done.
    + exfalso. apply H2. by right.
    + apply elem_of_cons in H2 as [->|?]; [|done]. apply lookup_insert_eq.
    + apply lookup_insert_ne. intros <-. apply H2. by left.
Qed.

Lemma add_edge_lookup (graph : gmap string (list Neighbor)) e :
  is_Some (graph !! Edge.a e) → is_Some (graph !! Edge.b e) →
  ∃ graph', add_edge graph e = Normal graph' ∧
    ∀ u, graph' !! u = (λ l, l ++ entries u e) <$> graph !! u.
Proof.
  intros [la Ha] [lb Hb]. unfold add_edge, push. rewrite Ha. simpl.
  unfold mbind, completion_bind.
  destruct (decide (Edge.a e = Edge.b e)) as [Hab|Hab].
  - rewrite <- Hab, lookup_insert_eq. eexists; split; [done|].
    intros u. unfold entries. rewrite <- Hab.
    destruct (decide (Edge.a e = u)) as [<-|Hu].
    + rewrite lookup_insert_eq, Ha. simpl. by rewrite <- app_assoc.
    + rewrite !lookup_insert_ne by done.
      destruct (graph !! u); simpl; by rewrite ?app_nil_r.
  - rewrite lookup_insert_ne, Hb by done. eexists; split; [done|].
    intros u. unfold entries.
    destruct (decide (Edge.b e = u)) as [<-|Hu].
    + rewrite lookup_insert_eq, Hb. simpl.
      by rewrite decide_False by done.
    + rewrite lookup_insert_ne by done.
      destruct (decide (Edge.a e = u)) as [<-|Hu'].
      * by rewrite lookup_insert_eq, Ha.
      * rewrite lookup_insert_ne by done.
        destruct (graph !! u); simpl; by rewrite ?app_nil_r.
Qed.

Lemma add_edges_lookup es : ∀ graph : gmap string (list Neighbor),
  Forall (λ e, is_Some (graph !! Edge.a e) ∧ is_Some (graph !! Edge.b e)) es →
  ∃ graph', add_edges graph es = Normal graph' ∧
    ∀ u, graph' !! u = (λ l, l ++ neighbours_of es u) <$> graph !! u.
Proof.
  induction es as [|e es IH]; intros graph Hall; simpl.
  - eexists; split; [done|]. intros u.
    destruct (graph !! u); simpl; by rewrite ?app_nil_r.
  - apply Forall_cons in Hall as [[Ha Hb] Hall].
    destruct (add_edge_lookup graph e Ha Hb) as (graph1 & -> & H1).
    destruct (IH graph1) as (graph' & Hrun & H').
    { eapply Forall_impl; [exact Hall|]. intros e' [[? Ha'] [? Hb']]; simpl.
      rewrite !H1, Ha', Hb'. eauto. }
    exists graph'. split; [exact Hrun|].
    intros u. rewrite H', H1. unfold neighbours_of; simpl.
    destruct (graph !! u); simpl; by rewrite ?app_assoc.
Qed.

(** The adjacency list of a graph whose edges join existing waypoints. *)
Lemma build_adjacency_lookup g :
  endpoints_exist g →
  ∃ graph, build_adjacency g = Normal graph ∧
    ∀ u, graph !! u =
         if decide (u ∈ ids g) then Some (neighbours_of (edges g) u) else None.
Proof.
  intros Hends. unfold build_adjacency.
  destruct (add_edges_lookup (edges g) (empty_adjacency (nodes g))) as (graph & Hrun & Hl).
  { eapply Forall_impl; [exact Hends|]. intros e [Ha Hb]; simpl.
    rewrite !empty_adjacency_lookup. fold (ids g).
    rewrite !decide_True by done. eauto. }
  exists graph. split; [done|]. intros u.
  rewrite Hl, empty_adjacency_lookup. fold (ids g). by case_decide.
Qed.

(** ** Numbers *)

Lemma num_lt_Fin_r x n : num_lt n (Fin x) = true ↔ ∃ y, n = Fin y ∧ y < x.
Proof.
  destruct n; simpl; rewrite ?bool_decide_eq_true; naive_solver.
Qed.


Lemma num_lt_true_l x n : num_lt x n = true → ∃ z, x = Fin z.
Proof. destruct x, n; simpl; naive_solver. Qed.

(** ** The insertion-ordered set *)

Lemma elem_of_set_add k u s : u ∈ set_add k s ↔ u ∈ s ∨ u = k.
Proof.
  unfold set_add. case_decide; [naive_solver|].
  rewrite elem_of_app, list_elem_of_singleton. tauto.
Qed.

Lemma NoDup_set_add k s : NoDup s → NoDup (set_add k s).
Proof.
  intros Hs. unfold set_add. case_decide; [done|].
  apply NoDup_app. split_and!; [done| |apply NoDup_singleton].
  intros x Hx ->%list_elem_of_singleton. done.
Qed.

Lemma elem_of_set_delete k u s : u ∈ set_delete k s ↔ u ∈ s ∧ u ≠ k.
Proof. unfold set_delete. rewrite list_elem_of_filter. tauto. Qed.

Lemma length_set_delete k s : k ∈ s → (length (set_delete k s) < length s)%nat.
Proof. intros Hk. apply (length_filter_lt _ _ k); [done|]. naive_solver. Qed.


(** ** Initialisation *)

Lemma init_fold ns : ∀ st,
  let st' := foldl init_node st ns in
  (∀ u, distances st' !! u =
        if decide (u ∈ Node.id <$> ns) then Some Infinity else distances st !! u) ∧
  (∀ u, previous st' !! u =
        if decide (u ∈ Node.id <$> ns) then Some null else previous st !! u) ∧
  (∀ u, u ∈ unvisited st' ↔ u ∈ unvisited st ∨ u ∈ Node.id <$> ns) ∧
  (NoDup (unvisited st) → NoDup (unvisited st')) ∧
  unvisited st' `sublist_of` unvisited st ++ (Node.id <$> ns).
Proof.
  induction ns as [|n ns IH]; intros st; cbn [foldl].
  - cbn zeta. rewrite fmap_nil, app_nil_r. split_and!; try done.
    intros u. rewrite elem_of_nil. tauto.
  - specialize (IH (init_node st n)). cbn zeta in IH |- *.
    destruct IH as (Hd & Hp & Hu & Hnd & Hsub). rewrite fmap_cons.
    split_and!.
    + intros u. rewrite Hd. simpl.
      destruct (decide (u ∈ Node.id <$> ns)) as [H1|H1];
        destruct (decide (u ∈ Node.id n :: (Node.id <$> ns))) as [H2|H2]; try done.
      * exfalso. apply H2. by right.
      * apply elem_of_cons in H2 as [->|?]; [|done]. apply lookup_insert_eq.
      * apply lookup_insert_ne. intros <-. apply H2. by left.
    + intros u. rewrite Hp. simpl.
      destruct (decide (u ∈ Node.id <$> ns)) as [H1|H1];
        destruct (decide (u ∈ Node.id n :: (Node.id <$> ns))) as [H2|H2]; try done.
      * exfalso. apply H2. by right.
      * apply elem_of_cons in H2 as [->|?]; [|done]. apply lookup_insert_eq.
      * apply lookup_insert_ne. intros <-. apply H2. by left.
    + intros u. rewrite Hu. simpl. rewrite elem_of_set_add, elem_of_cons. tauto.
    + intros Hst. apply Hnd. simpl. by apply NoDup_set_add.
    + etrans; [exact Hsub|]. simpl. unfold set_add. case_decide.
      * apply sublist_app; [done|]. by apply sublist_cons.
      * by rewrite <- app_assoc.
Qed.

Lemma init_search_distances ns s u :
  distances (init_search ns s) !! u =
  if decide (u = s) then Some (Fin 0)
  else if decide (u ∈ Node.id <$> ns) then Some Infinity else None.
Proof.
  unfold init_search; simpl.
  destruct (init_fold ns {| distances := ∅; previous := ∅; unvisited := [] |})
    as (Hd & _).
  case_decide as Hs; [subst; apply lookup_insert_eq|].
  rewrite lookup_insert_ne by done. rewrite Hd. simpl.
  case_decide; [done|apply lookup_empty].
Qed.

Lemma init_search_previous ns s u :
  previous (init_search ns s) !! u =
  if decide (u ∈ Node.id <$> ns) then Some null else None.
Proof.
  unfold init_search; simpl.
  destruct (init_fold ns {| distances := ∅; previous := ∅; unvisited := [] |})
    as (_ & Hp & _).
  rewrite Hp. simpl. case_decide; [done|apply lookup_empty].
Qed.

Lemma init_search_unvisited ns s :
  (∀ u, u ∈ unvisited (init_search ns s) ↔ u ∈ Node.id <$> ns) ∧
  NoDup (unvisited (init_search ns s)) ∧
  unvisited (init_search ns s) `sublist_of` (Node.id <$> ns).
Proof.
  unfold init_search; simpl.
  destruct (init_fold ns {| distances := ∅; previous := ∅; unvisited := [] |})
    as (_ & _ & Hu & Hnd & Hsub). simpl in *.
  split_and!; [|apply Hnd, NoDup_nil_2|done].
  intros u. rewrite Hu, elem_of_nil. tauto.
Qed.

(** ** Selection of the next waypoint *)

(** [find_min] returns the first element of [unvisited] among those of
    least finite distance, and nothing when no distance is finite. *)
Lemma find_min_spec (d : gmap string num) (l : list string) :
  match find_min d l with
  | (None, m) => m = Infinity ∧ ∀ u, u ∈ l → num_lt (dist_of d u) Infinity = false
  | (Some c, m) =>
      m = dist_of d c ∧ num_lt m Infinity = true ∧
      ∃ l1 l2, l = l1 ++ c :: l2 ∧
        (∀ u, u ∈ l1 → num_lt (dist_of d u) m = false ∧
                       (num_lt m (dist_of d u) = true ∨ dist_of d u = NaN)) ∧
        (∀ u, u ∈ l2 → num_lt (dist_of d u) m = false)
  end.
Proof.
  unfold find_min. induction l as [|x l IH] using rev_ind.
  - simpl. split; [done|]. intros u Hu. by apply elem_of_nil in Hu.
  - rewrite foldl_app. cbn [foldl].
    destruct (foldl (pick d) (None, Infinity) l) as [[c|] m]; unfold pick; simpl.
    + destruct IH as (-> & Hfin & l1 & l2 & -> & H1 & H2).
      destruct (num_lt (dist_of d x) (dist_of d c)) eqn:Hlt.
      * split_and!; [done|by destruct (dist_of d x), (dist_of d c)|].
        exists (l1 ++ c :: l2), []. split_and!; [done| |by intros ? ?%elem_of_nil].
        intros u [Hu|[->|Hu]%elem_of_cons]%elem_of_app.
        -- destruct (H1 u Hu) as [Ha Hb]. revert Hlt Ha Hb Hfin.
           generalize (dist_of d x) (dist_of d c) (dist_of d u). intros. num_solve.
           all: split; [num_solve|first [by right|left; solve [num_solve]]].
        -- revert Hlt Hfin. generalize (dist_of d x) (dist_of d c). intros. num_solve.
           all: split; [num_solve|first [by right|left; solve [num_solve]]].
        -- specialize (H2 u Hu). revert Hlt H2 Hfin.
           generalize (dist_of d x) (dist_of d c) (dist_of d u). intros. num_solve.
           all: split; [num_solve|first [by right|left; solve [num_solve]]].
      * split_and!; [done..|]. exists l1, (l2 ++ [x]).
        split_and!; [by rewrite <- app_assoc|done|].
        intros u [Hu| ->%list_elem_of_singleton]%elem_of_app; eauto.
    + destruct IH as [-> Hall].
      destruct (num_lt (dist_of d x) Infinity) eqn:Hlt.
      * split_and!; [done..|]. exists l, []. split_and!; [done| |by intros ? ?%elem_of_nil].
        intros u Hu. specialize (Hall u Hu). revert Hlt Hall.
        generalize (dist_of d x) (dist_of d u). intros.
        num_solve; split; first [done|by right|by left].
      * split; [done|].
        intros u [Hu| ->%list_elem_of_singleton]%elem_of_app; eauto.
Qed.

(** ** Walks *)

Lemma joins_sym e u v : joins e u v → joins e v u.
Proof. unfold joins. tauto. Qed.

Lemma joined_sym g u v w : joined g u v w → joined g v u w.
Proof. intros (e & ? & ? & ?). exists e. eauto using joins_sym. Qed.

Lemma walk_app g u v t m1 m2 :
  walk g u v m1 → walk g v t m2 → walk g u t (m1 + m2).
Proof.
  induction 1 as [u|u v v' w m Hj _ IH|u v m m' _ IH Heq]; intros Hvt.
  - eapply walk_eq; [done|]. lra.
  - eapply walk_eq; [eapply walk_step; [done|by apply IH]|]. lra.
  - eapply walk_eq; [by apply IH|]. lra.
Qed.

Lemma walk_snoc g u v t m w :
  walk g u v m → joined g v t w → walk g u t (m + w).
Proof.
  intros Huv Hj.
  eapply walk_eq; [eapply walk_app; [done|eapply walk_step; [done|constructor]]|].
  lra.
Qed.

Lemma walk_sym g u v m : walk g u v m → walk g v u m.
Proof.
  induction 1 as [u|u v t w m Hj _ IH|u v m m' _ IH Heq].
  - constructor.
  - eapply walk_eq; [eapply walk_snoc; [done|by apply joined_sym]|]. lra.
  - by eapply walk_eq.
Qed.


Lemma shortest_unique g u v m1 m2 :
  shortest g u v m1 → shortest g u v m2 → m1 == m2.
Proof.
  intros [Hw1 Hmin1] [Hw2 Hmin2].
  specialize (Hmin1 _ Hw2). specialize (Hmin2 _ Hw1). lra.
Qed.

Lemma joined_ids g u v w : endpoints_exist g → joined g u v w → u ∈ ids g ∧ v ∈ ids g.
Proof.
  unfold endpoints_exist. rewrite Forall_forall.
  intros Hends (e & He & [[<- <-]|[<- <-]] & _); destruct (Hends e He); done.
Qed.


Lemma weights_bounded_below g :
  positive_weights g → ∃ ε, 0 < ε ∧ ∀ u v w, joined g u v w → ε ≤ w.
Proof.
  unfold positive_weights, joined. induction (edges g) as [|e es IH]; intros Hall.
  - exists 1. split; [lra|]. by intros u v w (e & ?%elem_of_nil & _).
  - apply Forall_cons in Hall as [He Hall]. destruct (IH Hall) as (ε & Hε & Hmin).
    destruct (Qlt_le_dec (Edge.dist e) ε) as [Hlt|Hle].
    + exists (Edge.dist e). split; [done|].
      intros u v w (e' & [->|Hin]%elem_of_cons & Hj & <-); [lra|].
      assert (ε ≤ Edge.dist e') by (apply (Hmin u v); eauto). lra.
    + exists ε. split; [done|].
      intros u v w (e' & [->|Hin]%elem_of_cons & Hj & <-); [lra|].
      apply (Hmin u v); eauto.
Qed.

Lemma archimedes (x ε : Q) : 0 < ε → ∃ n : nat, x < inject_Z (Z.of_nat n) * ε.
Proof.
  intros Hε. destruct (Qarchimedean (x / ε)) as [p Hp].
  exists (Pos.to_nat p). rewrite positive_nat_Z.
  change (inject_Z (Z.pos p)) with (Z.pos p # 1).
  apply (Qmult_lt_compat_r _ _ ε) in Hp; [|done].
  rewrite Qmult_comm, Qmult_div_r in Hp; [done|]. lra.
Qed.

Lemma joined_positive g u v w : positive_weights g → joined g u v w → 0 < w.
Proof.
  unfold positive_weights. rewrite Forall_forall.
  intros Hpos (e & He & _ & <-). by apply Hpos.
Qed.

(** ** The search loop: what holds for every graph *)

Section search.
Context (g : Graph) (graph : gmap string (list Neighbor)) (s : string).
Hypothesis Hends : endpoints_exist g.
Hypothesis Hgraph : ∀ u,
  graph !! u = if decide (u ∈ ids g) then Some (neighbours_of (edges g) u) else None.

Lemma graph_lookup_joined c l nb :
  graph !! c = Some l → nb ∈ l → joined g c (node nb) (distance nb).
Proof.
  rewrite Hgraph. case_decide; [|done]. intros [= <-] Hnb.
  destruct nb. by apply neighbours_of_joined.
Qed.

Lemma init_reach : reach_inv g s (distances (init_search (nodes g) s))
                             (previous (init_search (nodes g) s)).
Proof.
  split.
  - intros u Hu. rewrite init_search_distances. fold (ids g).
    repeat case_decide; naive_solver.
  - intros u. rewrite init_search_previous. fold (ids g).
    case_decide; [naive_solver|]. split; [by intros [??]|done].
  - intros v x. unfold dist_of. rewrite init_search_distances.
    repeat case_decide; simpl; intros [=]; subst. constructor.
Qed.

Lemma relax_reach c d p nb :
  joined g c (node nb) (distance nb) →
  reach_inv g s d p → reach_inv g s (relax c (d, p) nb).1 (relax c (d, p) nb).2.
Proof.
  intros Hj [Hdef Hkeys Hwalk]. unfold relax. simpl.
  destruct (num_lt _ _) eqn:Hlt; [|done]. simpl.
  destruct (num_lt_true_l _ _ Hlt) as [z Hz].
  destruct (dist_of d c) as [x| |] eqn:Hc; simpl in Hz; try done.
  injection Hz as <-. simpl.
  destruct (joined_ids _ _ _ _ Hends Hj) as [_ Hv].
  split.
  - intros u Hu. destruct (decide (u = node nb)) as [->|Hne].
    + rewrite lookup_insert_eq. eauto.
    + rewrite lookup_insert_ne by done. eauto.
  - intros u. destruct (decide (u = node nb)) as [->|Hne].
    + rewrite lookup_insert_eq. naive_solver.
    + rewrite lookup_insert_ne by done. eauto.
  - intros v y. unfold dist_of. destruct (decide (v = node nb)) as [->|Hne].
    + rewrite lookup_insert_eq. simpl. intros [= <-].
      eapply walk_snoc; eauto.
    + rewrite lookup_insert_ne by done. apply Hwalk.
Qed.

Lemma relax_fold_reach c l : ∀ d p,
  (∀ nb, nb ∈ l → joined g c (node nb) (distance nb)) →
  reach_inv g s d p →
  reach_inv g s (foldl (relax c) (d, p) l).1 (foldl (relax c) (d, p) l).2.
Proof.
  induction l as [|nb l IH]; intros d p Hl Hinv; [done|].
  cbn [foldl]. destruct (relax c (d, p) nb) as [d1 p1] eqn:Hr.
  apply IH.
  - intros nb' ?. apply Hl. by right.
  - pose proof (relax_reach c d p nb) as H. rewrite Hr in H. apply H; [|done].
    apply Hl. by left.
Qed.

Lemma visit_reach st st' :
  visit graph st = Some st' →
  reach_inv g s (distances st) (previous st) →
  reach_inv g s (distances st') (previous st').
Proof.
  unfold visit. destruct (find_min _ _) as [[c|] m]; [|done].
  destruct (is_Infinity _); [done|]. intros [= <-] Hinv. simpl.
  destruct (graph !! c) as [l|] eqn:Hc; [|done].
  apply relax_fold_reach; [|done]. eauto using graph_lookup_joined.
Qed.



End search.


(** ** Relaxation of the neighbours of the selected waypoint *)

Lemma relax_fold_spec c x l : ∀ (d : gmap string num) (p : gmap string ref),
  dist_of d c = Fin x →
  (∀ nb, nb ∈ l → 0 ≤ distance nb) →
  let dp := foldl (relax c) (d, p) l in
  dist_of dp.1 c = Fin x ∧
  (∀ u, (dp.1 !! u = d !! u ∧ dp.2 !! u = p !! u) ∨
        ∃ w, {| node := u; distance := w |} ∈ l ∧
             dp.1 !! u = Some (Fin (x + w)) ∧ dp.2 !! u = Some (str c) ∧
             num_lt (Fin (x + w)) (dist_of d u) = true) ∧
  (∀ nb, nb ∈ l → num_lt (Fin (x + distance nb)) (dist_of dp.1 (node nb)) = false).
Proof.
  induction l as [|[v w] l IH]; intros d p Hc Hl; cbn zeta.
  - simpl. split_and!; [done|by left|]. by intros ? ?%elem_of_nil.
  - cbn [foldl].
    assert (0 ≤ w) as Hw by (apply (Hl {| node := v; distance := w |}); by left).
    assert (∃ d1 p1, relax c (d, p) {| node := v; distance := w |} = (d1, p1) ∧
              dist_of d1 c = Fin x ∧
              num_lt (Fin (x + w)) (dist_of d1 v) = false ∧
              ∀ u, (d1 !! u = d !! u ∧ p1 !! u = p !! u) ∨
                   (u = v ∧ d1 !! u = Some (Fin (x + w)) ∧ p1 !! u = Some (str c) ∧
                    num_lt (Fin (x + w)) (dist_of d u) = true))
      as (d1 & p1 & -> & Hc1 & Hv1 & Hu1).
    { unfold relax. simpl. rewrite Hc. simpl.
      destruct (num_lt (Fin (x + w)) (dist_of d v)) eqn:Hlt.
      - eexists _, _. split; [done|].
        assert (v ≠ c) as Hvc.
        { intros ->. rewrite Hc in Hlt. apply num_lt_Fin_r in Hlt as (? & [= <-] & ?). lra. }
        split_and!.
        + unfold dist_of. by rewrite lookup_insert_ne.
        + unfold dist_of. rewrite lookup_insert_eq. simpl.
          apply bool_decide_eq_false. lra.
        + intros u. destruct (decide (u = v)) as [->|Hne].
          * right. by rewrite !lookup_insert_eq.
          * left. by rewrite !lookup_insert_ne.
      - eexists _, _. split; [done|]. split_and!; [done..|]. by left. }
    destruct (IH d1 p1 Hc1) as (Hc' & Hu' & Hl').
    { intros nb ?. apply Hl. by right. }
    cbn zeta in *. set (dp := foldl (relax c) (d1, p1) l) in *.
    split_and!; [done| |].
    + intros u. destruct (Hu' u) as [[-> ->]|(w' & Hin & Hd' & Hp' & Hlt')].
      * destruct (Hu1 u) as [?|(-> & ? & ? & ?)]; [by left|].
        right. exists w. split_and!; [by left|done..].
      * right. exists w'. split_and!; [by right|done..|].
        destruct (Hu1 u) as [[Heq _]|(-> & Heq & _ & Hlt1)].
        -- unfold dist_of in *. by rewrite <- Heq.
        -- unfold dist_of in Hlt', Hlt1 |- *. rewrite Heq in Hlt'. simpl in Hlt'.
           revert Hlt' Hlt1. generalize (default NaN (d !! v)). intros. num_solve.
    + intros nb [->|Hin]%elem_of_cons; [|by apply Hl']. simpl.
      destruct (Hu' v) as [[Heq _]|(w' & _ & Heq & _ & Hlt')].
      * unfold dist_of in *. by rewrite Heq.
      * unfold dist_of in Hlt', Hv1 |- *. rewrite Heq. simpl.
        revert Hlt' Hv1. generalize (default NaN (d1 !! v)). intros. num_solve.
Qed.

Lemma visit_unvisited graph st st' :
  visit graph st = Some st' →
  ∃ c x, c ∈ unvisited st ∧ dist_of (distances st) c = Fin x ∧
         (∀ u, u ∈ unvisited st → num_lt (dist_of (distances st) u) (Fin x) = false) ∧
         unvisited st' = set_delete c (unvisited st).
Proof.
  unfold visit. pose proof (find_min_spec (distances st) (unvisited st)) as Hmin.
  destruct (find_min _ _) as [[c|] m]; [|done].
  destruct Hmin as (-> & Hfin & l1 & l2 & Hl & H1 & H2).
  destruct (dist_of (distances st) c) as [x| |] eqn:Hc; try done. simpl.
  intros [= <-]. exists c, x. simpl. split_and!; [|done| |done].
  - rewrite Hl. set_solver.
  - intros u. rewrite Hl. intros [Hu|[->|Hu]%elem_of_cons]%elem_of_app.
    + by apply H1.
    + rewrite Hc. simpl. apply bool_decide_eq_false. lra.
    + by apply H2.
Qed.

(** When the loop stops, no unvisited waypoint has a finite distance. *)
Lemma exit_unvisited graph st u x :
  unvisited st = [] ∨ visit graph st = None →
  u ∈ unvisited st → dist_of (distances st) u ≠ Fin x.
Proof.
  intros [Hnil|Hnone] Hu Hx; [rewrite Hnil in Hu; by apply elem_of_nil in Hu|].
  unfold visit in Hnone.
  pose proof (find_min_spec (distances st) (unvisited st)) as Hmin.
  destruct (find_min _ _) as [[c|] m].
  - destruct Hmin as (-> & Hfin & _).
    by destruct (dist_of (distances st) c).
  - destruct Hmin as [_ Hall]. specialize (Hall u Hu). by rewrite Hx in Hall.
Qed.

Lemma search_loop_exit graph fuel : ∀ st,
  (length (unvisited st) ≤ fuel)%nat →
  let st' := search_loop fuel graph st in
  unvisited st' = [] ∨ visit graph st' = None.
Proof.
  induction fuel as [|fuel IH]; intros st Hlen; simpl.
  - left. apply nil_length_inv. lia.
  - destruct (unvisited st) as [|k l] eqn:Hunv; [by left|].
    destruct (visit graph st) as [st'|] eqn:Hv; [|by right].
    apply IH. destruct (visit_unvisited _ _ _ Hv) as (c & x & Hc & _ & _ & ->).
    pose proof (length_set_delete c _ Hc). rewrite Hunv in *. simpl in *. lia.
Qed.


(** ** The walk along [previous] *)

Lemma reconstruct_null fuel p acc : reconstruct fuel p null acc = Some acc.
Proof. by destruct fuel. Qed.

(** ** The search loop on positive weights *)

Section shortest_paths.
Context (g : Graph) (graph : gmap string (list Neighbor)) (s : string).
Hypothesis Hends : endpoints_exist g.
Hypothesis Hpos : positive_weights g.
Hypothesis Hs : s ∈ ids g.
Hypothesis Hgraph : ∀ u,
  graph !! u = if decide (u ∈ ids g) then Some (neighbours_of (edges g) u) else None.

Lemma init_inv : dijkstra_inv g s (init_search (nodes g) s).
Proof.
  destruct (init_search_unvisited (nodes g) s) as (Hunv & _ & _).
  assert (∀ v x, dist_of (distances (init_search (nodes g) s)) v = Fin x →
            v = s ∧ x = 0) as Hfin.
  { intros v x. unfold dist_of. rewrite init_search_distances.
    repeat case_decide; simpl; naive_solver. }
  split.
  - by apply init_reach.
  - intros u. by rewrite Hunv.
  - rewrite init_search_distances. by rewrite decide_True.
  - rewrite init_search_previous. by rewrite decide_True.
  - intros v x [_ ->]%Hfin. done.
  - intros u [Hu Hnot]. by apply Hunv in Hu.
  - intros u v w x [Hu Hnot]. by apply Hunv in Hu.
  - intros u v x [Hu Hnot]. by apply Hunv in Hu.
  - intros v x [-> _]%Hfin. done.
Qed.

Lemma visit_inv st st' :
  visit graph st = Some st' → dijkstra_inv g s st → dijkstra_inv g s st'.
Proof.
  intros Hvisit Hinv.
  pose proof (visit_reach g graph s Hends Hgraph st st' Hvisit (di_reach _ _ _ Hinv)) as Hreach'.
  destruct (visit_unvisited _ _ _ Hvisit) as (c & x & Hc & Hdc & Hmin & Hunv').
  destruct Hinv as [Hreach Hunv Hstart Hsprev Hnonneg Hfin Hrelaxed Hle Htree].
  assert (c ∈ ids g) as Hcid by auto.
  assert (0 ≤ x) as Hx by eauto.
  (* what the turn did to the two maps *)
  assert (dist_of (distances st') c = Fin x ∧
    (∀ u, (distances st' !! u = distances st !! u ∧ previous st' !! u = previous st !! u) ∨
          ∃ w, joined g c u w ∧
               distances st' !! u = Some (Fin (x + w)) ∧ previous st' !! u = Some (str c) ∧
               num_lt (Fin (x + w)) (dist_of (distances st) u) = true) ∧
    (∀ v w, joined g c v w → num_lt (Fin (x + w)) (dist_of (distances st') v) = false))
    as (Hdc' & Hchange & Hnb).
  { unfold visit in Hvisit.
    pose proof (find_min_spec (distances st) (unvisited st)) as Hfm.
    destruct (find_min _ _) as [[c'|] m]; [|done].
    destruct (is_Infinity _); [done|].
    injection Hvisit as <-. simpl in *.
    assert (c' = c) as ->.
    { destruct Hfm as (-> & _ & l1 & l2 & Hl & H1 & _).
      destruct (decide (c' = c)) as [|Hne]; [done|exfalso].
      assert (c' ∈ unvisited st) as Hc' by (rewrite Hl; set_solver).
      assert (c ∈ set_delete c' (unvisited st)) as Hin
        by (apply elem_of_set_delete; auto).
      rewrite Hunv' in Hin. apply elem_of_set_delete in Hin. tauto. }
    rewrite Hgraph, decide_True by done.
    destruct (relax_fold_spec c x (neighbours_of (edges g) c)
                (distances st) (previous st) Hdc) as (H1 & H2 & H3).
    { intros [v w] Hin%neighbours_of_joined. simpl.
      pose proof (joined_positive _ _ _ _ Hpos Hin). lra. }
    cbn zeta in *. split_and!; [done| |].
    - intros u. destruct (H2 u) as [?|(w & Hin%neighbours_of_joined & ?)]; eauto.
    - intros v w Hj%neighbours_of_joined. by apply H3 in Hj. }
  assert (∀ u, done g st' u ↔ done g st u ∨ u = c) as Hdone'.
  { intros u. unfold done. rewrite Hunv', elem_of_set_delete.
    destruct (decide (u = c)) as [->|]; naive_solver. }
  (* visited waypoints, the selected one and the start keep their slots *)
  assert (∀ u y, dist_of (distances st) u = Fin y → y ≤ x →
            distances st' !! u = distances st !! u ∧
            previous st' !! u = previous st !! u) as Hkeep.
  { intros u y Hu Hy. destruct (Hchange u) as [?|(w & Hj & _ & _ & Hlt)]; [done|].
    pose proof (joined_positive _ _ _ _ Hpos Hj).
    rewrite Hu in Hlt. simpl in Hlt. apply bool_decide_eq_true in Hlt. lra. }
  assert (∀ u y, done g st u → dist_of (distances st) u = Fin y → y ≤ x) as Hdone_le.
  { intros u y Hu Hy. specialize (Hle u c y Hu Hc Hy).
    rewrite Hdc in Hle. simpl in Hle. apply bool_decide_eq_false in Hle. lra. }
  assert (∀ u, done g st u →
            distances st' !! u = distances st !! u ∧
            previous st' !! u = previous st !! u) as Hkeep_done.
  { intros u Hu. destruct (Hfin u Hu) as [y Hy]. eauto. }
  split.
  - done.
  - intros u. rewrite Hunv', elem_of_set_delete. naive_solver.
  - destruct (Hkeep s 0) as [-> _]; [by unfold dist_of; rewrite Hstart|lra|done].
  - destruct (Hkeep s 0) as [_ ->]; [by unfold dist_of; rewrite Hstart|lra|done].
  - intros v y Hv. destruct (Hchange v) as [[Heq _]|(w & Hj & Heq & _)].
    + apply (Hnonneg v). unfold dist_of in *. by rewrite <- Heq.
    + unfold dist_of in Hv. rewrite Heq in Hv. injection Hv as <-.
      pose proof (joined_positive _ _ _ _ Hpos Hj). lra.
  - intros u [Hu| ->]%Hdone'; [|eauto].
    destruct (Hkeep_done u Hu) as [Heq _]. unfold dist_of. rewrite Heq. by apply Hfin.
  - intros u v w xu [Hu| ->]%Hdone' Hxu Hj.
    + destruct (Hkeep_done u Hu) as [Heq _].
      unfold dist_of in Hxu. rewrite Heq in Hxu.
      destruct (Hrelaxed u v w xu Hu Hxu Hj) as (y & Hy & Hle').
      destruct (Hchange v) as [[Heqv _]|(w' & Hj' & Heqv & _ & Hlt)].
      * exists y. unfold dist_of in *. by rewrite Heqv.
      * exists (x + w'). unfold dist_of at 1. rewrite Heqv. split; [done|].
        rewrite Hy in Hlt. simpl in Hlt. apply bool_decide_eq_true in Hlt. lra.
    + rewrite Hdc' in Hxu. injection Hxu as <-.
      specialize (Hnb v w Hj).
      destruct (joined_ids _ _ _ _ Hends Hj) as [_ Hv].
      destruct (ri_defined _ _ _ _ Hreach' v Hv) as (n & Hn & Hnan).
      unfold dist_of in *. rewrite Hn in *. simpl in *.
      destruct n as [y| |]; [|done..]. exists y. split; [done|].
      apply bool_decide_eq_false in Hnb. lra.
  - intros u v xu Hu'%Hdone' Hv Hxu.
    rewrite Hunv' in Hv. apply elem_of_set_delete in Hv as [Hv Hvc].
    assert (xu ≤ x ∧ num_lt (dist_of (distances st) v) (Fin xu) = false) as [Hxu' Hold].
    { destruct Hu' as [Hu| ->].
      - destruct (Hkeep_done u Hu) as [Heq _].
        unfold dist_of in Hxu. rewrite Heq in Hxu. split; eauto.
      - rewrite Hdc' in Hxu. injection Hxu as <-. split; [lra|by apply Hmin]. }
    destruct (Hchange v) as [[Heqv _]|(w' & Hj' & Heqv & _ & Hlt)].
    + unfold dist_of in *. by rewrite Heqv.
    + unfold dist_of at 1. rewrite Heqv. simpl. apply bool_decide_eq_false.
      pose proof (joined_positive _ _ _ _ Hpos Hj'). lra.
  - intros v xv Hxv Hvs.
    destruct (Hchange v) as [[Heqd Heqp]|(w' & Hj' & Heqd & Heqp & Hlt)].
    + unfold dist_of in Hxv. rewrite Heqd in Hxv.
      destruct (Htree v xv Hxv Hvs) as (u & y & w & Hp & Hu & Hy & Hj & ->).
      exists u, y, w. rewrite Heqp.
      destruct (Hkeep_done u Hu) as [Hequ _].
      split_and!; [done|apply Hdone'; by left| |done..].
      unfold dist_of. by rewrite Hequ.
    + unfold dist_of in Hxv. rewrite Heqd in Hxv. injection Hxv as <-.
      exists c, x, w'. split_and!; [done|apply Hdone'; by right|done..].
Qed.

Lemma search_loop_inv fuel : ∀ st,
  dijkstra_inv g s st → dijkstra_inv g s (search_loop fuel graph st).
Proof.
  induction fuel as [|fuel IH]; intros st Hinv; [done|]. simpl.
  destruct (unvisited st); [done|].
  destruct (visit graph st) as [st'|] eqn:Hv; [|done].
  eauto using visit_inv.
Qed.

(** *** When the loop has stopped *)

Lemma final_done st v x :
  unvisited st = [] ∨ visit graph st = None →
  v ∈ ids g → dist_of (distances st) v = Fin x → done g st v.
Proof.
  intros Hexit Hv Hx. split; [done|]. intros Hin.
  by eapply exit_unvisited.
Qed.

Lemma final_lower st :
  dijkstra_inv g s st → unvisited st = [] ∨ visit graph st = None →
  ∀ v t m, walk g v t m → t = s →
    ∃ y, dist_of (distances st) v = Fin y ∧ y ≤ m.
Proof.
  intros Hinv Hexit.
  induction 1 as [v|u v t w m Hj Hw IH|u v m m' Hw IH Heq]; intros ->.
  - exists 0. unfold dist_of. rewrite (di_start _ _ _ Hinv). split; [done|lra].
  - destruct (IH eq_refl) as (y & Hy & Hle).
    destruct (joined_ids _ _ _ _ Hends Hj) as [_ Hv].
    destruct (di_relaxed _ _ _ Hinv v u w y) as (y' & Hy' & Hle');
      eauto using final_done, joined_sym.
    exists y'. split; [done|lra].
  - destruct (IH eq_refl) as (y & Hy & Hle). exists y. split; [done|lra].
Qed.

Lemma final_shortest st t x :
  dijkstra_inv g s st → unvisited st = [] ∨ visit graph st = None →
  dist_of (distances st) t = Fin x → shortest g s t x.
Proof.
  intros Hinv Hexit Hx. split.
  - by apply (ri_walk _ _ _ _ (di_reach _ _ _ Hinv)).
  - intros m' Hw%walk_sym.
    destruct (final_lower st Hinv Hexit _ _ _ Hw eq_refl) as (y & Hy & Hle).
    rewrite Hx in Hy. by injection Hy as <-.
Qed.

Lemma final_reached st t m :
  dijkstra_inv g s st → unvisited st = [] ∨ visit graph st = None →
  walk g s t m → ∃ x, dist_of (distances st) t = Fin x.
Proof.
  intros Hinv Hexit Hw%walk_sym.
  destruct (final_lower st Hinv Hexit _ _ _ Hw eq_refl) as (y & Hy & _). eauto.
Qed.

(** *** The chain of [previous] *)

Lemma chain st ε :
  dijkstra_inv g s st →
  0 < ε → (∀ u v w, joined g u v w → ε ≤ w) →
  ∀ (n : nat) v x,
    dist_of (distances st) v = Fin x → v ∈ ids g →
    x < inject_Z (Z.of_nat n) * ε →
    ∃ vs, head vs = Some s ∧ last vs = Some v ∧ NoDup vs ∧ follows g vs x ∧
          (∀ u, u ∈ vs → u ∈ ids g ∧
                ∃ y, dist_of (distances st) u = Fin y ∧ y ≤ x) ∧
          ∀ fuel acc, (length vs ≤ fuel)%nat →
            reconstruct fuel (previous st) (str v) acc = Some ((str <$> vs) ++ acc).
Proof.
  intros Hinv Hε Hmin. induction n as [|n IH]; intros v x Hx Hv Hn.
  { pose proof (di_nonneg _ _ _ Hinv v x Hx).
    change (inject_Z (Z.of_nat 0)) with 0 in Hn. lra. }
  destruct (decide (v = s)) as [->|Hvs].
  - assert (x = 0) as ->.
    { unfold dist_of in Hx. rewrite (di_start _ _ _ Hinv) in Hx. by injection Hx. }
    exists [s]. split_and!; [done|done|apply NoDup_singleton|constructor| |].
    + intros u ->%list_elem_of_singleton. split; [done|]. exists 0. split; [done|lra].
    + intros [|fuel] acc Hlen; simpl in Hlen; [lia|]. simpl.
      unfold prev_of. rewrite (di_start_prev _ _ _ Hinv). simpl.
      apply reconstruct_null.
  - destruct (di_tree _ _ _ Hinv v x Hx Hvs) as (u & y & w & Hp & Hu & Hy & Hj & ->).
    pose proof (joined_positive _ _ _ _ Hpos Hj) as Hw.
    pose proof (Hmin _ _ _ Hj) as Hεw.
    rewrite Nat2Z.inj_succ, <- Z.add_1_r, inject_Z_plus in Hn.
    change (inject_Z 1) with 1 in Hn.
    destruct (IH u y Hy (proj1 Hu)) as (vs & Hhd & Hlast & Hnd & Hfol & Hall & Hrec); [lra|].
    exists (vs ++ [v]). split_and!.
    + destruct vs; [done|]. done.
    + by rewrite last_snoc.
    + apply NoDup_app. split_and!; [done| |apply NoDup_singleton].
      intros k Hk ->%list_elem_of_singleton.
      destruct (Hall _ Hk) as (_ & y' & Hy' & Hle).
      rewrite Hx in Hy'. injection Hy' as <-. lra.
    + by eapply follows_snoc.
    + intros k [Hk| ->%list_elem_of_singleton]%elem_of_app.
      * destruct (Hall _ Hk) as (? & y' & Hy' & Hle).
        split; [done|]. exists y'. split; [done|lra].
      * split; [done|]. exists (y + w). split; [done|lra].
    + intros [|fuel] acc Hlen; rewrite length_app in Hlen; simpl in Hlen; [lia|].
      simpl. unfold prev_of. rewrite Hp. simpl.
      rewrite Hrec by lia. by rewrite fmap_app, <- app_assoc.
Qed.

Lemma chain_length st vs :
  dijkstra_inv g s st → NoDup vs → (∀ u, u ∈ vs → u ∈ ids g) →
  (length vs ≤ size (previous st))%nat.
Proof.
  intros Hinv Hnd Hall.
  rewrite <- (size_dom (D := gset string)).
  rewrite <- (size_list_to_set (C := gset string) vs) by done.
  apply subseteq_size. intros u Hu%elem_of_list_to_set.
  apply elem_of_dom, (ri_keys _ _ _ _ (di_reach _ _ _ Hinv)). auto.
Qed.
End shortest_paths.

(** ** [generateSteps] on a list of waypoints *)

Lemma find_node_ids g u :
  u ∈ ids g → ∃ n, find_node (nodes g) (str u) = Some n ∧ Node.id n = u.
Proof.
  intros (n & -> & Hn)%list_elem_of_fmap. simpl.
  destruct (List.find _ _) as [n'|] eqn:Hfind.
  - apply find_some in Hfind as [_ Hid%bool_decide_eq_true]. eauto.
  - apply list_elem_of_In in Hn.
    pose proof (find_none _ _ Hfind n Hn) as Hf. simpl in Hf.
    by apply bool_decide_eq_false in Hf.
Qed.

Lemma generateSteps_cons g r1 r2 rest :
  generateSteps g (r1 :: r2 :: rest) =
  match find_node (nodes g) r1, find_node (nodes g) r2 with
  | Some n1, Some n2 =>
      steps ← generateSteps g (r2 :: rest);
      mret ({| from := Node.name n1;
               to := Node.name n2;
               step_distance :=
                 match find_edge (edges g) (Node.id n1) (Node.id n2) with
                 | Some e => Edge.dist e
                 | None => 0
                 end;
               description := "Head towards " +:+ Node.name n2 |} :: steps)
  | _, _ => Throw TypeError
  end.
Proof. done. Qed.

Lemma generateSteps_total g vs :
  (∀ u, u ∈ vs → u ∈ ids g) →
  ∃ steps, generateSteps g (str <$> vs) = Normal steps ∧
           length steps = pred (length vs).
Proof.
  induction vs as [|u vs IH]; intros Hall; [by exists []|].
  destruct vs as [|v vs]; [by exists []|].
  destruct IH as (steps & Hsteps & Hlen); [intros ? ?; apply Hall; by right|].
  destruct (find_node_ids g u) as (n1 & Hn1 & _); [apply Hall; set_solver|].
  destruct (find_node_ids g v) as (n2 & Hn2 & _); [apply Hall; set_solver|].
  rewrite !fmap_cons in *. rewrite generateSteps_cons, Hn1, Hn2, Hsteps.
  eexists. split; [done|]. simpl in *. lia.
Qed.

(** ** [dijkstra] on a valid graph *)

(** For a destination that some walk reaches, [dijkstra] returns a route:
    its path is a walk of the graph from the start to the destination,
    and its distance is the least total weight of such a walk. *)
Lemma dijkstra_route g s t m :
  endpoints_exist g → positive_weights g → s ∈ ids g → t ∈ ids g →
  walk g s t m →
  ∃ r vs x,
    dijkstra g s t = Normal (Some r) ∧
    path r = str <$> vs ∧ head vs = Some s ∧ last vs = Some t ∧
    follows g vs x ∧
    tentative_distance g s t = Normal (Fin x) ∧
    route_distance r = Math_round (Fin x) ∧ shortest g s t x ∧
    length (steps r) = pred (length vs) ∧ (∀ u, u ∈ vs → u ∈ ids g).
Proof.
  intros Hends Hpos Hs Ht Hw. unfold dijkstra, tentative_distance.
  destruct (build_adjacency_lookup g Hends) as (graph & -> & Hgraph).
  cbn [mbind completion_bind].
  set (st := search graph (init_search (nodes g) s)).
  assert (dijkstra_inv g s st) as Hinv.
  { apply (search_loop_inv g graph s); auto. by apply init_inv. }
  assert (unvisited st = [] ∨ visit graph st = None) as Hexit
    by (apply search_loop_exit; lia).
  destruct (final_reached g graph s Hends st t m Hinv Hexit Hw) as [x Hx].
  rewrite Hx. cbn [is_Infinity].
  destruct (weights_bounded_below g Hpos) as (ε & Hε & Hmin).
  destruct (archimedes x ε Hε) as [n Hn].
  destruct (chain g s Hpos st ε Hinv Hε Hmin n t x Hx Ht Hn)
    as (vs & Hhd & Hlast & Hnd & Hfol & Hall & Hrec).
  rewrite (Hrec _ []), app_nil_r.
  2:{ pose proof (chain_length g s st vs Hinv Hnd) as Hlen.
      etrans; [apply Hlen; intros u Hu; by apply Hall|]. lia. }
  destruct (generateSteps_total g vs) as (steps & -> & Hlen);
    [intros u Hu; by apply Hall|].
  cbn [mbind completion_bind mret completion_ret].
  eexists _, vs, x. split; [done|]. simpl.
  split_and!; try done.
  - by eapply final_shortest.
  - intros u Hu. by apply Hall.
Qed.

(** ** The bound on the walk along [previous] is exact *)

Lemma reaches_unique p c n n' : reaches p c n → reaches p c n' → n = n'.
Proof.
  intros H. revert n'. induction H as [|c n Hc _ IH]; intros n' H'.
  - by inversion H'.
  - inversion H' as [|c' m Hc' Hm]; subst; [done|]. f_equal. by apply IH.
Qed.

Lemma reconstruct_reaches fuel : ∀ p c acc path,
  reconstruct fuel p c acc = Some path → ∃ n, (n ≤ fuel)%nat ∧ reaches p c n.
Proof.
  induction fuel as [|fuel IH]; intros p c acc path H.
  - destruct c; [|done..]. exists O. split; [done|constructor].
  - destruct c; [exists O; split; [lia|constructor]|..];
      simpl in H; apply IH in H as (n & ? & ?);
      exists (S n); (split; [lia|by constructor]).
Qed.

Lemma reaches_reconstruct p c n :
  reaches p c n → ∀ fuel acc path,
  reconstruct fuel p c acc = Some path →
  ∀ fuel', (n ≤ fuel')%nat → reconstruct fuel' p c acc = Some path.
Proof.
  induction 1 as [|c n Hc _ IH]; intros fuel acc path Hrun fuel' Hle.
  - rewrite reconstruct_null in *. done.
  - destruct fuel' as [|fuel']; [lia|].
    destruct fuel as [|fuel]; destruct c; try done; simpl in *;
      eapply IH; eauto; lia.
Qed.

(** A key that no later turn reads can be deleted. *)
Lemma reaches_delete p k c n :
  reaches p c n →
  (∀ c' m, reaches p c' (S m) → to_key c' = k → (n ≤ m)%nat) →
  reaches (delete k p) c n.
Proof.
  induction 1 as [|c n Hc Hnext IH]; intros Hfresh; [constructor|].
  assert (to_key c ≠ k) as Hk.
  { intros Heq. assert (reaches p c (S n)) as Hr by by constructor.
    specialize (Hfresh c n Hr Heq). lia. }
  constructor; [done|]. unfold prev_of in *. rewrite lookup_delete_ne by done.
  apply IH. intros c' m Hr Heq. specialize (Hfresh c' m Hr Heq). lia.
Qed.

Lemma reaches_delete_next p c n :
  c ≠ null → reaches p (prev_of p (to_key c)) n →
  reaches (delete (to_key c) p) (prev_of p (to_key c)) n.
Proof.
  intros Hc Hnext. apply reaches_delete; [done|].
  intros c' m Hr Heq. inversion Hr as [|c'' m' _ Hm]; subst.
  rewrite Heq in Hm. by rewrite (reaches_unique _ _ _ _ Hnext Hm).
Qed.

Lemma reaches_undefined_stuck p n :
  p !! "undefined" = None → ¬ reaches p undefined n.
Proof.
  intros Hp. induction n as [|n IH]; intros H; inversion H as [|c m _ Hm]; subst.
  simpl in Hm. unfold prev_of in Hm. rewrite Hp in Hm. simpl in Hm.
  pose proof (reaches_unique _ _ _ _ H Hm). lia.
Qed.

Lemma size_delete_present (p : gmap string ref) k r :
  p !! k = Some r → size p = S (size (delete k p)).
Proof.
  intros Hk. rewrite map_size_delete, Hk. simpl.
  destruct (size p) eqn:Hsz; [|done].
  apply map_size_empty_inv in Hsz. by rewrite Hsz, lookup_empty in Hk.
Qed.

Lemma reaches_bound_no_undefined n : ∀ p c,
  p !! "undefined" = None → reaches p c n → (n ≤ size p)%nat.
Proof.
  induction n as [|n IH]; intros p c Hundef Hr; [lia|].
  inversion Hr as [|c' m Hc Hnext]; subst.
  pose proof (reaches_delete_next p c n Hc Hnext) as Hdel.
  unfold prev_of in *. destruct (p !! to_key c) as [r|] eqn:Hk; simpl in *.
  - rewrite (size_delete_present p _ r Hk).
    apply le_n_S, (IH _ r); [|done].
    rewrite lookup_delete_ne; [done|]. intros Heq. by rewrite Heq, Hundef in Hk.
  - by apply reaches_undefined_stuck in Hnext.
Qed.

Lemma reaches_bound n : ∀ p c, reaches p c n → (n ≤ S (size p))%nat.
Proof.
  induction n as [|n IH]; intros p c Hr; [lia|].
  inversion Hr as [|c' m Hc Hnext]; subst.
  pose proof (reaches_delete_next p c n Hc Hnext) as Hdel.
  unfold prev_of in *. destruct (p !! to_key c) as [r|] eqn:Hk; simpl in *.
  - rewrite (size_delete_present p _ r Hk). apply le_n_S. by apply (IH _ r).
  - clear Hdel. destruct (p !! "undefined") as [r|] eqn:Hundef.
    + inversion Hnext as [|c' m _ Hnext']; subst. simpl in Hnext'.
      pose proof (reaches_delete_next p undefined m) as Hdel. simpl in Hdel.
      unfold prev_of in *. rewrite Hundef in *. simpl in *.
      rewrite (size_delete_present p _ r Hundef).
      apply le_n_S, le_n_S.
      eapply reaches_bound_no_undefined; [|by apply Hdel].
      apply lookup_delete_eq.
    + by apply reaches_undefined_stuck in Hnext.
Qed.

(** If the walk along [previous] ends at all, it has ended within
    [S (size previous)] turns: the [Diverges] of [dijkstra] stands for a
    loop that does not end. *)
Lemma reconstruct_bound_exact fuel p c acc path :
  reconstruct fuel p c acc = Some path →
  reconstruct (S (size p)) p c acc = Some path.
Proof.
  intros Hrun. destruct (reconstruct_reaches _ _ _ _ _ Hrun) as (n & _ & Hn).
  eapply reaches_reconstruct; eauto using reaches_bound.
Qed.

Lemma reconstruct_diverges p c acc :
  reconstruct (S (size p)) p c acc = None →
  ∀ fuel, reconstruct fuel p c acc = None.
Proof.
  intros Hnone fuel. destruct (reconstruct fuel p c acc) as [path|] eqn:Hrun; [|done].
  apply reconstruct_bound_exact in Hrun. congruence.
Qed.

(** ** Walks along a list of waypoints *)

Lemma find_edge_joined g u v e :
  find_edge (edges g) u v = Some e → joined g u v (Edge.dist e).
Proof.
  intros [Hin%list_elem_of_In Hjoin]%find_some. exists e. split_and!; [done| |done].
  apply orb_true_iff in Hjoin as [[H1 H2]%andb_true_iff|[H1 H2]%andb_true_iff];
    apply bool_decide_eq_true in H1, H2; [by left|by right].
Qed.

Lemma path_weight_walk g vs : ∀ u t m,
  head vs = Some u → last vs = Some t → path_weight g vs = Some m → walk g u t m.
Proof.
  induction vs as [|u' vs IH]; intros u t m Hhd Hlast Hw; [done|].
  injection Hhd as ->. destruct vs as [|v vs].
  - injection Hlast as ->. injection Hw as <-. constructor.
  - change (path_weight g (u :: v :: vs)) with
      (match find_edge (edges g) u v with
       | Some e => (λ m, Edge.dist e + m) <$> path_weight g (v :: vs)
       | None => None
       end) in Hw.
    destruct (find_edge (edges g) u v) as [e|] eqn:He; [|done].
    destruct (path_weight g (v :: vs)) as [m'|] eqn:Hm'; [|done].
    injection Hw as <-. eapply walk_step; [by eapply find_edge_joined|].
    apply IH; [done| |done]. by rewrite last_cons_cons in Hlast.
Qed.

(** ** What [dijkstra] reads of the waypoints *)

Lemma label_id (ns ns' : list Node.t) :
  label <$> ns = label <$> ns' → Node.id <$> ns = Node.id <$> ns'.
Proof.
  intros H. apply (f_equal (fmap fst)) in H.
  by rewrite <- !list_fmap_compose in H.
Qed.

Lemma empty_adjacency_ids (ns ns' : list Node.t) :
  Node.id <$> ns = Node.id <$> ns' → empty_adjacency ns = empty_adjacency ns'.
Proof.
  intros H. apply map_eq. intros u. by rewrite !empty_adjacency_lookup, H.
Qed.

Lemma init_node_ids n n' st :
  Node.id n = Node.id n' → init_node st n = init_node st n'.
Proof. unfold init_node. by intros ->. Qed.

Lemma init_search_ids (ns : list Node.t) : ∀ (ns' : list Node.t) s,
  Node.id <$> ns = Node.id <$> ns' → init_search ns s = init_search ns' s.
Proof.
  intros ns' s H. unfold init_search.
  enough (∀ st, foldl init_node st ns = foldl init_node st ns') as -> by done.
  revert ns' H. induction ns as [|n ns IH]; intros [|n' ns'] H st; try done.
  rewrite !fmap_cons in H. injection H as Hn H. simpl.
  rewrite (init_node_ids n n') by done. by apply IH.
Qed.

Lemma find_node_label (ns : list Node.t) : ∀ (ns' : list Node.t) r,
  label <$> ns = label <$> ns' →
  label <$> find_node ns r = label <$> find_node ns' r.
Proof.
  intros ns' [| |k]; [done..|]. revert ns'.
  induction ns as [|n ns IH]; intros [|n' ns'] H; try done.
  rewrite !fmap_cons in H. injection H as Hid Hname H. simpl.
  rewrite <- Hid. case_bool_decide; simpl.
  - unfold label. by rewrite Hid, Hname.
  - by apply IH.
Qed.

Lemma generateSteps_label g g' path :
  label <$> nodes g = label <$> nodes g' → edges g = edges g' →
  generateSteps g path = generateSteps g' path.
Proof.
  intros Hn He. induction path as [|r1 path IH]; [done|].
  destruct path as [|r2 path]; [done|].
  rewrite !generateSteps_cons, IH, He.
  pose proof (find_node_label _ _ r1 Hn) as H1.
  pose proof (find_node_label _ _ r2 Hn) as H2.
  destruct (find_node (nodes g) r1) as [n1|], (find_node (nodes g') r1) as [n1'|];
    try done.
  destruct (find_node (nodes g) r2) as [n2|], (find_node (nodes g') r2) as [n2'|];
    try done.
  injection H1 as Hid1 Hname1. injection H2 as Hid2 Hname2.
  by rewrite Hid1, Hname1, Hid2, Hname2.
Qed.

Lemma dijkstra_label g g' s t :
  label <$> nodes g = label <$> nodes g' → edges g = edges g' →
  dijkstra g s t = dijkstra g' s t.
Proof.
  intros Hn He. unfold dijkstra, build_adjacency.
  rewrite (empty_adjacency_ids _ _ (label_id _ _ Hn)).
  rewrite (init_search_ids _ _ s (label_id _ _ Hn)), He.
  destruct (add_edges _ _) as [graph| |]; [|done..].
  cbn [mbind completion_bind].
  destruct (is_Infinity _); [done|].
  destruct (reconstruct _ _ _ _) as [path|]; [|done].
  by rewrite (generateSteps_label g g' path Hn He).
Qed.

(** ** [findRoute] in terms of [dijkstra] *)


Lemma findRoute_dijkstra st s t :
  s ≠ "" → t ≠ "" → s ≠ t →
  findRoute (choose s t st) =
  (path ← dijkstra (graph st) s t;
   match path with
   | None =>
       Normal (showToast (clearRoute (choose s t st))
                 (Text "No route found between selected locations") error)
   | Some routeData =>
       st2 ← displayRoute (clearRoute (choose s t st)) routeData;
       Normal (showToast st2 (RouteFound (route_distance routeData)) success)
   end).
Proof.
  intros Hs Ht Hst. unfold findRoute. cbn [startSelect endSelect choose].
  by rewrite !bool_decide_eq_false_2 by done.
Qed.

(** ** Order of the unvisited set *)



(** ** Closed sets of waypoints *)


(** ** Facts about the sample data *)



Lemma default_walk_library : walk getDefaultGraphData "main_gate" "library" 480.
Proof.
  by apply (path_weight_walk getDefaultGraphData
    ["main_gate"; "entrance_junction"; "parking_area"; "cafeteria"; "library"]).
Qed.

(** ** Routes between connected waypoints *)




Lemma default_route_library :
  dijkstra getDefaultGraphData "main_gate" "library" = Normal (Some libraryRoute).
Proof. by vm_compute. Qed.

Lemma default_shortest_library :
  shortest getDefaultGraphData "main_gate" "library" 480.
Proof.
  destruct default_graph_valid as [Hends Hpos].
  destruct (dijkstra_route getDefaultGraphData "main_gate" "library" 480)
    as (r & vs & x & _ & _ & _ & _ & _ & Hexact & _ & Hmin & _);
    [done|done|by_compute|by_compute|exact default_walk_library|].
  assert (tentative_distance getDefaultGraphData "main_gate" "library"
          = Normal (Fin 480)) as Heq by by vm_compute.
  rewrite Heq in Hexact. by injection Hexact as <-.
Qed.

(** C2, as stated, fails on the default data: the route from the main
    gate to the library does not pass the west junction, its distance is
    480 and not 550, and 550 is not the least weight of a walk. *)
Lemma C2_counterexample :
  ∃ r, dijkstra getDefaultGraphData "main_gate" "library" = Normal (Some r) ∧
       (str "west_junction" ∉ path r) ∧
       route_distance r = Fin 480 ∧ ¬ 480 == 120 + 150 + 180 + 100 ∧
       ¬ shortest getDefaultGraphData "main_gate" "library" (120 + 150 + 180 + 100).
Proof.
  exists libraryRoute. split_and!.
  - exact default_route_library.
  - by_compute.
  - done.
  - lra.
  - intros H. pose proof (shortest_unique _ _ _ _ _ H default_shortest_library). lra.
Qed.

(** C2, amended: on the default data the route from the main gate to the
    library goes through the entrance junction, the parking area and the
    cafeteria, and its distance, 120 + 80 + 160 + 120 = 480, is the least
    total weight of a walk between the two. *)
Theorem C2_default_route_to_library :
  dijkstra getDefaultGraphData "main_gate" "library" = Normal (Some libraryRoute) ∧
  path libraryRoute = [str "main_gate"; str "entrance_junction"; str "parking_area";
                       str "cafeteria"; str "library"] ∧
  route_distance libraryRoute = Fin (120 + 80 + 160 + 120) ∧
  shortest getDefaultGraphData "main_gate" "library" (120 + 80 + 160 + 120).
Proof.
  split_and!; [exact default_route_library|done|done|exact default_shortest_library].
Qed.

(** ** Import *)




(** ** Queries that name no waypoint, same endpoints, no route *)

(** The reconstruction loop does not end when the destination names no
    waypoint (and no waypoint is called "undefined"). *)
Example unknown_destination :
  dijkstra getDefaultGraphData "library" "nowhere" = Diverges.
Proof. by vm_compute. Qed.

(** The route of weight 2.5 + 1.25 is preferred to the edge of weight
    4.5, and its distance is reported as 4. *)
Example rounded_distance :
  tentative_distance pathwayGraph "quad" "pool" = Normal (Fin (3750 # 1000)) ∧
  (λ r, (path r, route_distance r)) <$>
    (match dijkstra pathwayGraph "quad" "pool" with
     | Normal r => r
     | _ => None
     end)
  = Some ([str "quad"; str "gym"; str "pool"], Fin 4).
Proof. by vm_compute. Qed.

(** [dijkstra] on equal endpoints would return a route without steps. *)
Example dijkstra_same_endpoints :
  dijkstra getDefaultGraphData "library" "library"
  = Normal (Some {| path := [str "library"]; route_distance := Fin 0; steps := [] |}).
Proof. by vm_compute. Qed.




(** C5: [findRoute] with the same identifier as start and as end is
    turned down by a warning toast before anything else happens: the
    application is otherwise unchanged, [dijkstra] is not called, no
    route is shown.  (An empty identifier is turned down one test
    earlier, as a missing selection.) *)
Theorem C5_same_endpoints_rejected (st : CampusMap) (s : string) :
  findRoute (choose s s st)
  = Normal (showToast (choose s s st)
              (Text (if decide (s = "")
                     then "Please select both start and end locations"
                     else "Start and end locations cannot be the same"))
              warning) ∧
  ∀ st', findRoute (choose s s st) = Normal st' →
         routeOutput st' = routeOutput st ∧ currentRoute st' = currentRoute st ∧
         graph st' = graph st.
Proof.
  assert (findRoute (choose s s st)
    = Normal (showToast (choose s s st)
                (Text (if decide (s = "")
                       then "Please select both start and end locations"
                       else "Start and end locations cannot be the same"))
                warning)) as Hrun.
  { unfold findRoute. cbn [startSelect endSelect choose].
    case_decide as Hs.
    - by rewrite (bool_decide_eq_true_2 _ Hs).
    - by rewrite (bool_decide_eq_false_2 _ Hs), bool_decide_eq_true_2. }
  split; [done|]. intros st'. rewrite Hrun. by intros [= <-].
Qed.

(** Where [dijkstra] itself would throw, the query with equal endpoints
    is still turned down by the toast. *)
Lemma C5_witness :
  dijkstra danglingGraph "quad" "quad" = Throw TypeError ∧
  findRoute (choose "quad" "quad" (importGraph initial (Some (Parsed danglingSnapshot))))
  = Normal (showToast
              (choose "quad" "quad" (importGraph initial (Some (Parsed danglingSnapshot))))
              (Text "Start and end locations cannot be the same") warning).
Proof.
  split; [by vm_compute|].
  exact (proj1 (C5_same_endpoints_rejected
                  (importGraph initial (Some (Parsed danglingSnapshot))) "quad")).
Defined.




(** ** The adjacency list of a valid graph *)

(** C7: for a valid graph the adjacency list is built without an
    exception; it has an entry for every waypoint, the empty list for a
    waypoint that no connection touches, and for every connection
    [{a, b, dist}] the entry [{node: b, distance: dist}] in the list of
    [a] and [{node: a, distance: dist}] in the list of [b].  Nothing
    else is in it: every entry comes from a connection, and only
    waypoints have a list. *)
Theorem C7_adjacency_complete (g : Graph) :
  valid_graph g →
  ∃ graph,
    build_adjacency g = Normal graph ∧
    (∀ n, n ∈ nodes g → is_Some (graph !! Node.id n)) ∧
    (∀ n, n ∈ nodes g →
          (∀ e, e ∈ edges g → Edge.a e ≠ Node.id n ∧ Edge.b e ≠ Node.id n) →
          graph !! Node.id n = Some []) ∧
    (∀ e, e ∈ edges g →
          ∃ la lb, graph !! Edge.a e = Some la ∧ graph !! Edge.b e = Some lb ∧
                   {| node := Edge.b e; distance := Edge.dist e |} ∈ la ∧
                   {| node := Edge.a e; distance := Edge.dist e |} ∈ lb) ∧
    (∀ u l nb, graph !! u = Some l → nb ∈ l →
               u ∈ ids g ∧ joined g u (node nb) (distance nb)).
Proof.
  intros [Hends _].
  destruct (build_adjacency_lookup g Hends) as (graph & Hrun & Hl).
  exists graph. split_and!; [done|..].
  - intros n Hn. rewrite Hl, decide_True; [done|].
    apply list_elem_of_fmap. eauto.
  - intros n Hn Hfree. rewrite Hl, decide_True by (apply list_elem_of_fmap; eauto).
    f_equal. apply elem_of_nil_inv. intros nb (e & He & Hj & _)%elem_of_neighbours_of.
    destruct (Hfree e He). destruct Hj as [[??]|[??]]; done.
  - intros e He. unfold endpoints_exist in Hends. rewrite Forall_forall in Hends.
    destruct (Hends e He) as [Ha Hb].
    exists (neighbours_of (edges g) (Edge.a e)), (neighbours_of (edges g) (Edge.b e)).
    rewrite !Hl, !decide_True by done. split_and!; [done..| |].
    + apply neighbours_of_joined. exists e. split_and!; [done|by left|done].
    + apply neighbours_of_joined. exists e. split_and!; [done|by right|done].
  - intros u l [v w] Hu Hnb. rewrite Hl in Hu. case_decide; [|done].
    injection Hu as <-. split; [done|]. by apply neighbours_of_joined.
Qed.

Lemma C7_witness :
  valid_graph getDefaultGraphData ∧
  ∃ graph,
    build_adjacency getDefaultGraphData = Normal graph ∧
    (∀ n, n ∈ nodes getDefaultGraphData → is_Some (graph !! Node.id n)) ∧
    graph !! "parking_area"
      = Some [ {| node := "entrance_junction"; distance := 80 |};
               {| node := "cafeteria"; distance := 160 |} ].
Proof.
  assert (valid_graph getDefaultGraphData) as H by exact default_graph_valid.
  split; [done|].
  destruct (C7_adjacency_complete getDefaultGraphData H) as (graph & Hrun & Hall & _).
  exists graph. split_and!; [done..|].
  assert (match build_adjacency getDefaultGraphData with
          | Normal m => m !! "parking_area"
          | _ => None
          end = Some [ {| node := "entrance_junction"; distance := 80 |};
                       {| node := "cafeteria"; distance := 160 |} ]) as Heq
    by (vm_compute; reflexivity).
  by rewrite Hrun in Heq.
Defined.

(** ** Symmetry *)



(** ** Moving a waypoint *)

Lemma joined_edges g g' u v w : edges g = edges g' → joined g u v w → joined g' u v w.
Proof. unfold joined. by intros ->. Qed.

Lemma walk_edges g g' u v m : edges g = edges g' → walk g u v m → walk g' u v m.
Proof.
  intros He. induction 1; [constructor| |by eapply walk_eq].
  eapply walk_step; eauto using joined_edges.
Qed.

Lemma dragend_graph st i pos :
  edges (graph (dragend st i pos)) = edges (graph st) ∧
  metadata (graph (dragend st i pos)) = metadata (graph st) ∧
  label <$> nodes (graph (dragend st i pos)) = label <$> nodes (graph st).
Proof.
  unfold dragend. destruct (nodes (graph st) !! i) as [n|] eqn:Hn; [|done].
  destruct (isAdminMode st); [|done]. simpl. split_and!; [done..|].
  rewrite list_fmap_insert. apply list_insert_id.
  by rewrite list_lookup_fmap, Hn.
Qed.

(** C9: the [dragend] handler writes the latitude and the longitude of
    the dragged waypoint and nothing else of the graph: edges, metadata,
    every identifier and name, and every other waypoint stay as they
    were.  So the walks of the graph and their weights are the same,
    every query returns the same path, distance and steps as before, and
    the route on display is untouched. *)
Theorem C9_dragend_frame (st : CampusMap) (i : nat) (pos : Q * Q) :
  edges (graph (dragend st i pos)) = edges (graph st) ∧
  metadata (graph (dragend st i pos)) = metadata (graph st) ∧
  Node.id <$> nodes (graph (dragend st i pos)) = Node.id <$> nodes (graph st) ∧
  Node.name <$> nodes (graph (dragend st i pos)) = Node.name <$> nodes (graph st) ∧
  (∀ j, j ≠ i → nodes (graph (dragend st i pos)) !! j = nodes (graph st) !! j) ∧
  (∀ n, nodes (graph st) !! i = Some n → isAdminMode st = true →
        nodes (graph (dragend st i pos)) !! i = Some (move n pos)) ∧
  (∀ u v m, walk (graph (dragend st i pos)) u v m ↔ walk (graph st) u v m) ∧
  (∀ s t, dijkstra (graph (dragend st i pos)) s t = dijkstra (graph st) s t) ∧
  routeOutput (dragend st i pos) = routeOutput st ∧
  currentRoute (dragend st i pos) = currentRoute st.
Proof.
  destruct (dragend_graph st i pos) as (He & Hm & Hl).
  split_and!; [done|done|..].
  - apply (f_equal (fmap fst)) in Hl. by rewrite <- !list_fmap_compose in Hl.
  - apply (f_equal (fmap snd)) in Hl. by rewrite <- !list_fmap_compose in Hl.
  - intros j Hj. unfold dragend.
    destruct (nodes (graph st) !! i); [|done]. destruct (isAdminMode st); [|done].
    simpl. by rewrite list_lookup_insert_ne.
  - intros n Hn Hadmin. unfold dragend. rewrite Hn, Hadmin. simpl.
    apply list_lookup_insert_eq. by eapply lookup_lt_Some.
  - intros u v m. split; by apply walk_edges.
  - intros s t. by apply dijkstra_label.
  - unfold dragend. destruct (nodes (graph st) !! i); [|done].
    by destruct (isAdminMode st).
  - unfold dragend. destruct (nodes (graph st) !! i); [|done].
    by destruct (isAdminMode st).
Qed.

(** The library dragged, in admin mode, to another place: it has moved,
    and the route to it is what it was. *)
Lemma C9_witness :
  nodes (graph (dragend (toggleAdminMode initial) 6 (13.2000%Q, 77.7100%Q))) !! 6%nat
    = Some (Node.mk "library" "Library" 13.2000 77.7100) ∧
  dijkstra (graph (dragend (toggleAdminMode initial) 6 (13.2000%Q, 77.7100%Q)))
    "main_gate" "library" = Normal (Some libraryRoute).
Proof.
  pose proof (C9_dragend_frame (toggleAdminMode initial) 6 (13.2000%Q, 77.7100%Q))
    as (_ & _ & _ & _ & _ & Hmove & _ & Hsame & _).
  split.
  - exact (Hmove _ eq_refl eq_refl).
  - rewrite Hsame. exact default_route_library.
Defined.

(** ** Determinism and the choice among equal distances *)

(** Two routes of weight 450 lead from the main gate to the west
    junction; the strict comparison keeps the one found first. *)
Example equal_routes_keep_first :
  (λ r, (path r, route_distance r)) <$>
    (match dijkstra getDefaultGraphData "main_gate" "west_junction" with
     | Normal r => r
     | _ => None
     end)
  = Some ([str "main_gate"; str "entrance_junction"; str "south_junction";
           str "west_junction"], Fin 450).
Proof. by vm_compute. Qed.

Example first_of_equal_distances :
  find_min (<["gym" := Fin 5]> (<["quad" := Fin 5]> (<["pool" := Fin 7]> ∅)))
           ["pool"; "quad"; "gym"]
  = (Some "quad", Fin 5).
Proof. by vm_compute. Qed.


(** ** The outcome of a query between waypoints of a valid graph *)

Lemma dijkstra_outcome g s t :
  endpoints_exist g → positive_weights g → s ∈ ids g → t ∈ ids g →
  (dijkstra g s t = Normal None ∧ ∀ m, ¬ walk g s t m) ∨
  (∃ r vs x,
     dijkstra g s t = Normal (Some r) ∧
     path r = str <$> vs ∧ head vs = Some s ∧ last vs = Some t ∧ NoDup vs ∧
     (∀ u, u ∈ vs → u ∈ ids g) ∧ follows g vs x ∧
     generateSteps g (str <$> vs) = Normal (steps r) ∧
     tentative_distance g s t = Normal (Fin x) ∧
     route_distance r = Math_round (Fin x) ∧ shortest g s t x).
Proof.
  intros Hends Hpos Hs Ht. unfold dijkstra, tentative_distance.
  destruct (build_adjacency_lookup g Hends) as (graph & -> & Hgraph).
  cbn [mbind completion_bind].
  set (st := search graph (init_search (nodes g) s)).
  assert (dijkstra_inv g s st) as Hinv.
  { apply (search_loop_inv g graph s); auto. by apply init_inv. }
  assert (unvisited st = [] ∨ visit graph st = None) as Hexit
    by (apply search_loop_exit; lia).
  destruct (ri_defined _ _ _ _ (di_reach _ _ _ Hinv) t Ht) as (n & Hn & Hnan).
  assert (dist_of (distances st) t = n) as Hd by (unfold dist_of; by rewrite Hn).
  rewrite Hd. destruct n as [x| |]; [|left|done].
  - right. cbn [is_Infinity].
    destruct (weights_bounded_below g Hpos) as (ε & Hε & Hmin).
    destruct (archimedes x ε Hε) as [k Hk].
    destruct (chain g s Hpos st ε Hinv Hε Hmin k t x Hd Ht Hk)
      as (vs & Hhd & Hlast & Hnd & Hfol & Hall & Hrec).
    rewrite (Hrec _ []), app_nil_r.
    2:{ pose proof (chain_length g s st vs Hinv Hnd) as Hlen.
        etrans; [apply Hlen; intros u Hu; by apply Hall|]. lia. }
    destruct (generateSteps_total g vs) as (steps & Hsteps & Hlen);
      [intros u Hu; by apply Hall|].
    rewrite Hsteps. cbn [mbind completion_bind mret completion_ret].
    eexists _, vs, x. split; [done|]. simpl.
    split_and!; try done.
    + intros u Hu. by apply Hall.
    + by eapply final_shortest.
  - split; [done|]. intros m Hw.
    destruct (final_reached g graph s Hends st t m Hinv Hexit Hw) as [x Hx].
    congruence.
Qed.





(** ** The path of a route *)

Lemma str_lookup (vs : list string) k u :
  (str <$> vs) !! k = Some (str u) ↔ vs !! k = Some u.
Proof.
  rewrite list_lookup_fmap. destruct (vs !! k); simpl; naive_solver.
Qed.

(** X3: the path of a route found on a valid graph visits no waypoint
    twice: it is a list of distinct waypoint identifiers, from the start
    to the destination, and so never longer than the node list. *)
Theorem route_path_simple (g : Graph) (s t : string) (r : Route) :
  valid_graph g → s ∈ ids g → t ∈ ids g → dijkstra g s t = Normal (Some r) →
  ∃ vs, path r = str <$> vs ∧ NoDup vs ∧ (∀ u, u ∈ vs → u ∈ ids g) ∧
        head vs = Some s ∧ last vs = Some t ∧
        (length (path r) ≤ length (nodes g))%nat.
Proof.
  intros [Hends Hpos] Hs Ht Hrun.
  destruct (dijkstra_outcome g s t Hends Hpos Hs Ht)
    as [[Hnone _]|(r' & vs & x & Hrun' & Hpath & Hhd & Hlast & Hnd & Hall & _)];
    [congruence|].
  assert (r' = r) as -> by congruence.
  exists vs. split_and!; try done.
  rewrite Hpath, length_fmap, <- (length_fmap Node.id (nodes g)).
  apply submseteq_length, NoDup_submseteq; [done|]. exact Hall.
Qed.

Lemma route_path_simple_witness :
  valid_graph getDefaultGraphData ∧
  "main_gate" ∈ ids getDefaultGraphData ∧ "library" ∈ ids getDefaultGraphData ∧
  dijkstra getDefaultGraphData "main_gate" "library" = Normal (Some libraryRoute) ∧
  ∃ vs, path libraryRoute = str <$> vs ∧ NoDup vs ∧
        (∀ u, u ∈ vs → u ∈ ids getDefaultGraphData) ∧
        head vs = Some "main_gate" ∧ last vs = Some "library" ∧
        (length (path libraryRoute) ≤ length (nodes getDefaultGraphData))%nat.
Proof.
  assert (valid_graph getDefaultGraphData) as H1 by exact default_graph_valid.
  assert ("main_gate" ∈ ids getDefaultGraphData) as H2 by by_compute.
  assert ("library" ∈ ids getDefaultGraphData) as H3 by by_compute.
  assert (dijkstra getDefaultGraphData "main_gate" "library" = Normal (Some libraryRoute))
    as H4 by exact default_route_library.
  split_and!; [done..|].
  exact (route_path_simple getDefaultGraphData "main_gate" "library" libraryRoute
           H1 H2 H3 H4).
Defined.

(** ** The steps of a route *)

Lemma find_node_some ns u n :
  find_node ns (str u) = Some n → n ∈ ns ∧ Node.id n = u.
Proof.
  simpl. intros [Hin%list_elem_of_In Hid%bool_decide_eq_true]%find_some. done.
Qed.

Lemma find_edge_some es u v e :
  find_edge es u v = Some e → e ∈ es ∧ joins e u v.
Proof.
  intros [Hin%list_elem_of_In Hjoin]%find_some. split; [done|].
  apply orb_true_iff in Hjoin as [[H1 H2]%andb_true_iff|[H1 H2]%andb_true_iff];
    apply bool_decide_eq_true in H1, H2; [by left|by right].
Qed.

Lemma joined_find_edge g u v w :
  joined g u v w → ∃ e, find_edge (edges g) u v = Some e.
Proof.
  intros (e & He%list_elem_of_In & Hj & _).
  destruct (find_edge (edges g) u v) as [e'|] eqn:Hfind; [eauto|].
  pose proof (find_none _ _ Hfind e He) as Hf. simpl in Hf.
  enough (bool_decide (Edge.a e = u) && bool_decide (Edge.b e = v)
          || bool_decide (Edge.b e = u) && bool_decide (Edge.a e = v) = true)
    by congruence.
  apply orb_true_iff.
  destruct Hj as [[? ?]|[? ?]]; [left|right];
    apply andb_true_iff; split; by apply bool_decide_eq_true.
Qed.

Lemma follows_singleton g v m : follows g [v] m → m = 0.
Proof.
  inversion 1 as [|vs u v' w m' Hlast _ _ Heq]; [done|].
  destruct vs as [|? [|]]; simplify_eq/=.
Qed.

Lemma follows_cons g l m :
  follows g l m → ∀ u v rest, l = u :: v :: rest →
  ∃ w m', joined g u v w ∧ follows g (v :: rest) m' ∧ m == w + m'.
Proof.
  induction 1 as [v0|vs u0 v0 w m Hlast Hj Hfol IH]; intros u v rest Heq; [done|].
  destruct vs as [|a [|b vs]]; [done|..].
  - simpl in Heq, Hlast. injection Heq as <- <- <-. injection Hlast as <-.
    apply follows_singleton in Hfol as ->.
    exists w, 0. split_and!; [done|constructor|lra].
  - simpl in Heq. injection Heq as <- <- <-.
    destruct (IH _ _ _ eq_refl) as (w0 & m0 & Hj0 & Hfol0 & Hm).
    exists w0, (m0 + w). split_and!; [done| |lra].
    change (b :: vs ++ [v0]) with ((b :: vs) ++ [v0]).
    by eapply follows_snoc.
Qed.

Lemma follows_joined g vs m :
  follows g vs m → ∀ k u v, vs !! k = Some u → vs !! S k = Some v →
  ∃ w, joined g u v w.
Proof.
  revert m. induction vs as [|a vs IH]; intros m Hfol k u v Hu Hv; [done|].
  destruct vs as [|b vs]; [done|].
  destruct (follows_cons _ _ _ Hfol _ _ _ eq_refl) as (w & m' & Hj & Hfol' & _).
  destruct k as [|k]; simplify_eq/=; eauto.
Qed.

Lemma generateSteps_lookup g : ∀ vs steps k u v,
  generateSteps g (str <$> vs) = Normal steps →
  vs !! k = Some u → vs !! S k = Some v →
  ∃ n1 n2,
    find_node (nodes g) (str u) = Some n1 ∧ find_node (nodes g) (str v) = Some n2 ∧
    steps !! k = Some
      {| from := Node.name n1;
         to := Node.name n2;
         step_distance :=
           match find_edge (edges g) (Node.id n1) (Node.id n2) with
           | Some e => Edge.dist e
           | None => 0
           end;
         description := "Head towards " +:+ Node.name n2 |}.
Proof.
  induction vs as [|a vs IH]; intros steps k u v Hrun Hu Hv; [done|].
  destruct vs as [|b vs]; [done|].
  rewrite !fmap_cons in Hrun. rewrite generateSteps_cons in Hrun.
  destruct (find_node (nodes g) (str a)) as [n1|] eqn:Hn1; [|done].
  destruct (find_node (nodes g) (str b)) as [n2|] eqn:Hn2; [|done].
  destruct (generateSteps g (str b :: (str <$> vs))) as [steps'| |] eqn:Hrest;
    [|done..].
  cbn [mbind completion_bind mret completion_ret] in Hrun. injection Hrun as <-.
  destruct k as [|k].
  - simplify_eq/=. by exists n1, n2.
  - simpl in Hu, Hv. destruct (IH steps' k u v) as (m1 & m2 & ? & ? & ?); [done..|].
    by exists m1, m2.
Qed.

(** X4: a route found on a valid graph has one step per pair of
    consecutive waypoints of its path.  The step between [u] and [v]
    names the first waypoints that carry these identifiers, and its
    distance is the weight of a connection that joins [u] and [v]: the
    first one in the edge list. *)
Theorem route_steps_follow_path (g : Graph) (s t : string) (r : Route) :
  valid_graph g → s ∈ ids g → t ∈ ids g → dijkstra g s t = Normal (Some r) →
  length (steps r) = pred (length (path r)) ∧
  ∀ k u v, path r !! k = Some (str u) → path r !! S k = Some (str v) →
    ∃ n1 n2 e,
      find_node (nodes g) (str u) = Some n1 ∧ Node.id n1 = u ∧
      find_node (nodes g) (str v) = Some n2 ∧ Node.id n2 = v ∧
      find_edge (edges g) u v = Some e ∧ e ∈ edges g ∧ joins e u v ∧
      steps r !! k = Some {| from := Node.name n1;
                             to := Node.name n2;
                             step_distance := Edge.dist e;
                             description := "Head towards " +:+ Node.name n2 |}.
Proof.
  intros [Hends Hpos] Hs Ht Hrun.
  destruct (dijkstra_outcome g s t Hends Hpos Hs Ht)
    as [[Hnone _]|(r' & vs & x & Hrun' & Hpath & _ & _ & _ & Hall & Hfol & Hsteps & _)];
    [congruence|].
  assert (r' = r) as -> by congruence.
  split.
  - destruct (generateSteps_total g vs Hall) as (steps' & Hsteps' & Hlen).
    rewrite Hpath, length_fmap. congruence.
  - intros k u v. rewrite Hpath, !str_lookup. intros Hu Hv.
    destruct (generateSteps_lookup g vs _ k u v Hsteps Hu Hv)
      as (n1 & n2 & Hn1 & Hn2 & Hk).
    destruct (find_node_some _ _ _ Hn1) as [_ Hid1].
    destruct (find_node_some _ _ _ Hn2) as [_ Hid2].
    destruct (follows_joined _ _ _ Hfol k u v Hu Hv) as [w Hj].
    destruct (joined_find_edge _ _ _ _ Hj) as [e He].
    destruct (find_edge_some _ _ _ _ He) as [Hin Hjoins].
    exists n1, n2, e. rewrite Hid1, Hid2, He in Hk. done.
Qed.

Lemma route_steps_follow_path_witness :
  valid_graph getDefaultGraphData ∧
  "main_gate" ∈ ids getDefaultGraphData ∧ "library" ∈ ids getDefaultGraphData ∧
  dijkstra getDefaultGraphData "main_gate" "library" = Normal (Some libraryRoute) ∧
  length (steps libraryRoute) = pred (length (path libraryRoute)) ∧
  ∃ n1 n2 e,
    find_node (nodes getDefaultGraphData) (str "parking_area") = Some n1 ∧
    find_node (nodes getDefaultGraphData) (str "cafeteria") = Some n2 ∧
    find_edge (edges getDefaultGraphData) "parking_area" "cafeteria" = Some e ∧
    steps libraryRoute !! 2%nat
    = Some {| from := Node.name n1;
              to := Node.name n2;
              step_distance := Edge.dist e;
              description := "Head towards " +:+ Node.name n2 |}.
Proof.
  assert (valid_graph getDefaultGraphData) as H1 by exact default_graph_valid.
  assert ("main_gate" ∈ ids getDefaultGraphData) as H2 by by_compute.
  assert ("library" ∈ ids getDefaultGraphData) as H3 by by_compute.
  assert (dijkstra getDefaultGraphData "main_gate" "library" = Normal (Some libraryRoute))
    as H4 by exact default_route_library.
  split_and!; [done..|].
  destruct (route_steps_follow_path getDefaultGraphData "main_gate" "library"
              libraryRoute H1 H2 H3 H4) as [Hlen Hsteps].
  destruct (Hsteps 2%nat "parking_area" "cafeteria" eq_refl eq_refl)
    as (n1 & n2 & e & Hn1 & _ & Hn2 & _ & He & _ & _ & Hk).
  exists n1, n2, e. repeat split; assumption.
Defined.





(** With two connections between the same pair of waypoints the steps
    can add up to more than the distance of the route: the search takes
    the lighter connection, the step list the one listed first. *)
Example parallel_steps_exceed :
  valid_graph parallelGraph ∧
  (λ r, (route_distance r, step_distance <$> steps r)) <$>
    (match dijkstra parallelGraph "quad" "gym" with
     | Normal r => r
     | _ => None
     end)
  = Some (Fin 50, [90]).
Proof. split; [by_compute|by vm_compute]. Qed.



(** ** Connections to missing waypoints *)

Lemma push_keys (graph graph' : gmap string (list Neighbor)) k x :
  push graph k x = Normal graph' → ∀ u, is_Some (graph' !! u) ↔ is_Some (graph !! u).
Proof.
  unfold push. destruct (graph !! k) as [l|] eqn:Hk; [|done]. intros [= <-] u.
  destruct (decide (u = k)) as [->|Hne].
  - rewrite lookup_insert_eq, Hk. by split.
  - by rewrite lookup_insert_ne.
Qed.

Lemma add_edge_dangling (graph : gmap string (list Neighbor)) e :
  graph !! Edge.a e = None ∨ graph !! Edge.b e = None →
  add_edge graph e = Throw TypeError.
Proof.
  intros Hmiss. unfold add_edge.
  destruct (push graph (Edge.a e) _) as [graph1| |] eqn:Hpush; cbn [mbind completion_bind].
  - pose proof (push_keys _ _ _ _ Hpush (Edge.b e)) as Hkeys.
    unfold push in *. destruct (graph !! Edge.a e) eqn:Ha; [|done].
    destruct Hmiss as [?|Hb]; [done|].
    destruct (graph1 !! Edge.b e) eqn:Hb1; [|done].
    rewrite Hb in Hkeys. by destruct (proj1 Hkeys (mk_is_Some _ _ eq_refl)).
  - unfold push in Hpush. destruct (graph !! Edge.a e); congruence.
  - unfold push in Hpush. by destruct (graph !! Edge.a e).
Qed.

Lemma add_edge_keys (graph graph' : gmap string (list Neighbor)) e :
  add_edge graph e = Normal graph' → ∀ u, is_Some (graph' !! u) ↔ is_Some (graph !! u).
Proof.
  unfold add_edge.
  destruct (push graph (Edge.a e) _) as [graph1| |] eqn:Hpush;
    cbn [mbind completion_bind]; [|done..].
  intros Hpush' u.
  rewrite (push_keys _ _ _ _ Hpush' u). by apply (push_keys _ _ _ _ Hpush).
Qed.

Lemma add_edges_dangling es : ∀ graph : gmap string (list Neighbor),
  Exists (λ e, graph !! Edge.a e = None ∨ graph !! Edge.b e = None) es →
  add_edges graph es = Throw TypeError.
Proof.
  induction es as [|e es IH]; intros graph Hex; [by apply Exists_nil in Hex|].
  cbn [add_edges].
  destruct (add_edge graph e) as [graph1| |] eqn:Hadd; cbn [mbind completion_bind].
  - apply IH. apply Exists_cons in Hex as [Hmiss|Hex].
    { by rewrite (add_edge_dangling _ _ Hmiss) in Hadd. }
    pose proof (add_edge_keys _ _ _ Hadd) as Hkeys.
    eapply Exists_impl; [exact Hex|]. simpl.
    intros e' [H|H]; [left|right];
      apply eq_None_not_Some; rewrite Hkeys, H; by intros [??].
  - unfold add_edge, push in Hadd.
    destruct (graph !! Edge.a e); cbn [mbind completion_bind] in Hadd; [|congruence].
    destruct (_ !! Edge.b e); congruence.
  - unfold add_edge, push in Hadd.
    destruct (graph !! Edge.a e); cbn [mbind completion_bind] in Hadd; [|done].
    by destruct (_ !! Edge.b e).
Qed.

(** X7: when some connection of the graph names a waypoint that does
    not exist, every call of [dijkstra] throws a [TypeError], whatever
    the two identifiers are, and so does every route query that gets
    past the checks of [findRoute]. *)
Theorem dijkstra_dangling_throws (g : Graph) (s t : string) :
  ¬ endpoints_exist g →
  dijkstra g s t = Throw TypeError ∧
  (s ≠ "" → t ≠ "" → s ≠ t → ∀ st, graph st = g →
   findRoute (choose s t st) = Throw TypeError).
Proof.
  intros Hdangling.
  assert (dijkstra g s t = Throw TypeError) as Hrun.
  { unfold dijkstra, build_adjacency. rewrite add_edges_dangling; [done|].
    apply not_Forall_Exists in Hdangling; [|apply _].
    eapply Exists_impl; [exact Hdangling|]. intros e He. simpl in He.
    rewrite !empty_adjacency_lookup. fold (ids g).
    repeat case_decide; tauto. }
  split; [done|]. intros Hs Ht Hst st <-.
  by rewrite findRoute_dijkstra, Hrun.
Qed.

Lemma dijkstra_dangling_throws_witness :
  ¬ endpoints_exist danglingGraph ∧
  dijkstra danglingGraph "gym" "quad" = Throw TypeError.
Proof.
  assert (¬ endpoints_exist danglingGraph) as H.
  { intros H. by apply (bool_decide_pack _) in H. }
  split; [done|].
  exact (proj1 (dijkstra_dangling_throws danglingGraph "gym" "quad" H)).
Defined.

(** ** A destination that names no waypoint *)






(** ** What a route query does to the application *)

Lemma routeCoords_length g : ∀ p coords,
  routeCoords g p = Normal coords → length coords = length p.
Proof.
  induction p as [|r p IH]; intros coords; cbn [routeCoords]; [by intros [= <-]|].
  destruct (find_node (nodes g) r); [|done].
  destruct (routeCoords g p) as [coords'| |]; [|done..].
  cbn [mbind completion_bind mret completion_ret]. intros [= <-]. simpl.
  by rewrite (IH coords').
Qed.

Lemma displayRoute_frame st r st' :
  displayRoute st r = Normal st' →
  graph st' = graph st ∧ isAdminMode st' = isAdminMode st ∧ toasts st' = toasts st ∧
  startSelect st' = startSelect st ∧ endSelect st' = endSelect st ∧
  routeOutput st' = Some r ∧
  ∃ coords, currentRoute st' = Some coords ∧ length coords = length (path r).
Proof.
  unfold displayRoute.
  destruct (routeCoords (graph st) (path r)) as [coords| |] eqn:Hc; [|done..].
  cbn [mbind completion_bind]. apply routeCoords_length in Hc.
  destruct (path r); [done|]. intros [= <-]. simpl. split_and!; try done.
  by exists coords.
Qed.

Lemma findRoute_effect st st' :
  findRoute st = Normal st' →
  graph st' = graph st ∧ isAdminMode st' = isAdminMode st ∧
  (∃ toast, toasts st' = toasts st ++ [toast]) ∧
  ((startSelect st' = startSelect st ∧ endSelect st' = endSelect st) ∨
   (startSelect st' = "" ∧ endSelect st' = "")).
Proof.
  unfold findRoute.
  destruct (bool_decide (startSelect st = "") || bool_decide (endSelect st = ""));
    [intros [= <-]; simpl; eauto 10|].
  destruct (bool_decide (startSelect st = endSelect st));
    [intros [= <-]; simpl; eauto 10|].
  destruct (dijkstra _ _ _) as [[r|]| |]; cbn [mbind completion_bind];
    [|intros [= <-]; simpl; eauto 10|done..].
  destruct (displayRoute _ _) as [st2| |] eqn:Hshow; cbn [mbind completion_bind]; [|done..].
  apply displayRoute_frame in Hshow as (Hg & Ha & Ht & Hs2 & He2 & _).
  intros [= <-]. simpl. rewrite Hg, Ha, Ht, Hs2, He2. simpl. eauto 10.
Qed.

(** X9: a route query that returns leaves the graph and the admin flag
    as they were and shows exactly one toast, whatever the selectors
    hold. *)
Theorem findRoute_frame (st st' : CampusMap) :
  findRoute st = Normal st' →
  graph st' = graph st ∧ isAdminMode st' = isAdminMode st ∧
  ∃ toast, toasts st' = toasts st ++ [toast].
Proof.
  intros (Hg & Ha & Ht & _)%findRoute_effect. done.
Qed.

Lemma findRoute_frame_witness :
  ∃ st', findRoute (choose "main_gate" "library" initial) = Normal st' ∧
         graph st' = graph (choose "main_gate" "library" initial) ∧
         isAdminMode st' = isAdminMode (choose "main_gate" "library" initial) ∧
         ∃ toast, toasts st' = toasts (choose "main_gate" "library" initial) ++ [toast].
Proof.
  destruct (findRoute (choose "main_gate" "library" initial)) as [st'| |] eqn:H;
    [|by vm_compute in H..].
  exists st'. split; [done|]. exact (findRoute_frame _ _ H).
Defined.

(** X10: a route query that gets past the two checks of [findRoute] and
    returns has reset both selectors, and it shows what [dijkstra]
    found: no route at all after a failed search, even if one was on
    display before, and otherwise the new route with one point of the
    polyline per waypoint of its path.  A second click on the button is
    therefore answered by the missing-selection warning. *)
Theorem findRoute_resets_selectors (st st' : CampusMap) :
  startSelect st ≠ "" → endSelect st ≠ "" → startSelect st ≠ endSelect st →
  findRoute st = Normal st' →
  startSelect st' = "" ∧ endSelect st' = "" ∧
  (dijkstra (graph st) (startSelect st) (endSelect st) = Normal None →
   routeOutput st' = None ∧ currentRoute st' = None) ∧
  (∀ r, dijkstra (graph st) (startSelect st) (endSelect st) = Normal (Some r) →
   routeOutput st' = Some r ∧
   ∃ coords, currentRoute st' = Some coords ∧ length coords = length (path r)) ∧
  findRoute st'
  = Normal (showToast st' (Text "Please select both start and end locations") warning).
Proof.
  intros Hs Ht Hst. unfold findRoute at 1.
  rewrite !bool_decide_eq_false_2 by done. cbn [orb clearRoute graph].
  destruct (dijkstra _ _ _) as [[r|]| |]; cbn [mbind completion_bind]; [| |done..].
  - destruct (displayRoute _ _) as [st2| |] eqn:Hshow;
      cbn [mbind completion_bind]; [|done..].
    apply displayRoute_frame in Hshow as (_ & _ & _ & Hs2 & Ht2 & Hout & Hcoords).
    intros [= <-]. simpl in *. split_and!; [done|done|done| |].
    + by intros r' [= <-].
    + unfold findRoute. simpl. by rewrite Hs2.
  - intros [= <-]. simpl. split_and!; done.
Qed.

Lemma findRoute_resets_selectors_witness :
  startSelect (choose "main_gate" "library" initial) ≠ "" ∧
  endSelect (choose "main_gate" "library" initial) ≠ "" ∧
  startSelect (choose "main_gate" "library" initial)
    ≠ endSelect (choose "main_gate" "library" initial) ∧
  ∃ st', findRoute (choose "main_gate" "library" initial) = Normal st' ∧
         startSelect st' = "" ∧ endSelect st' = "" ∧
         routeOutput st' = Some libraryRoute ∧
         findRoute st'
         = Normal (showToast st'
                     (Text "Please select both start and end locations") warning).
Proof.
  assert (startSelect (choose "main_gate" "library" initial) ≠ "") as H1 by done.
  assert (endSelect (choose "main_gate" "library" initial) ≠ "") as H2 by done.
  assert (startSelect (choose "main_gate" "library" initial)
          ≠ endSelect (choose "main_gate" "library" initial)) as H3 by done.
  split_and!; [done..|].
  destruct (findRoute (choose "main_gate" "library" initial)) as [st'| |] eqn:H;
    [|by vm_compute in H..].
  destruct (findRoute_resets_selectors _ _ H1 H2 H3 H) as (Hs & He & _ & Hr & Hagain).
  exists st'. split_and!; [done..| |done].
  exact (proj1 (Hr libraryRoute default_route_library)).
Defined.

(** ** The selectors *)





(** ** [generateSteps] on an arbitrary path *)

Lemma generateSteps_cases g : ∀ p,
  (∃ steps, generateSteps g p = Normal steps ∧
            length steps = pred (length p) ∧
            ((length p < 2)%nat ∨ ∀ r, r ∈ p → is_Some (find_node (nodes g) r))) ∨
  (generateSteps g p = Throw TypeError ∧ (2 ≤ length p)%nat ∧
   ∃ r, r ∈ p ∧ find_node (nodes g) r = None).
Proof.
  induction p as [|r1 p IH]; [left; exists []; simpl; auto with lia|].
  destruct p as [|r2 p]; [left; exists []; simpl; auto with lia|].
  rewrite generateSteps_cons.
  destruct (find_node (nodes g) r1) as [n1|] eqn:Hn1.
  2:{ right. split_and!; [done|simpl; lia|]. exists r1. split; [by left|done]. }
  destruct (find_node (nodes g) r2) as [n2|] eqn:Hn2.
  2:{ right. split_and!; [done|simpl; lia|]. exists r2. split; [right; by left|done]. }
  destruct IH as [(steps & -> & Hlen & Hfound)|(-> & Hlen & r & Hr & Hnone)];
    cbn [mbind completion_bind mret completion_ret].
  - left. eexists. split_and!; [done|simpl in *; lia|]. right.
    intros r [->|Hr]%elem_of_cons; [by rewrite Hn1|].
    destruct Hfound as [Hshort|Hall]; [|by apply Hall].
    destruct p; [|simpl in Hshort; lia].
    apply list_elem_of_singleton in Hr as ->. by rewrite Hn2.
  - right. split_and!; [done|simpl; lia|]. exists r. split; [by right|done].
Qed.

(** X12: [generateSteps] throws exactly when the path has at least two
    elements and one of them names no waypoint; otherwise it returns one
    step per pair of consecutive elements, none for a path of fewer
    than two. *)
Theorem generateSteps_throws_iff (g : Graph) (p : list ref) :
  (generateSteps g p = Throw TypeError ↔
   (2 ≤ length p)%nat ∧ ∃ r, r ∈ p ∧ find_node (nodes g) r = None) ∧
  ((length p < 2)%nat ∨ (∀ r, r ∈ p → is_Some (find_node (nodes g) r)) →
   ∃ steps, generateSteps g p = Normal steps ∧
            length steps = pred (length p)).
Proof.
  destruct (generateSteps_cases g p)
    as [(steps & Hrun & Hlen & Hfound)|(Hrun & Hlen & r & Hr & Hnone)].
  - split; [|by exists steps]. rewrite Hrun. split; [done|].
    intros [Hlong (r & Hr & Hnone)]. destruct Hfound as [Hshort|Hall]; [lia|].
    destruct (Hall r Hr) as [n Hn]. congruence.
  - split; [split; [eauto|done]|].
    intros [Hshort|Hall]; [lia|]. destruct (Hall r Hr) as [n Hn]. congruence.
Qed.

(** ** The search box *)



Lemma filter_searchIndex toLowerCase g query :
  filter (λ item, includes (searchText item) (toLowerCase query) = true)
         (buildSearchIndex toLowerCase g)
  = (λ n, {| item_id := Node.id n;
             item_name := Node.name n;
             searchText := toLowerCase (Node.name n) |})
    <$> filter (matches_query toLowerCase query) (nodes g).
Proof.
  unfold buildSearchIndex. induction (nodes g) as [|n ns IH]; [done|].
  rewrite fmap_cons, !filter_cons, IH. unfold matches_query. simpl.
  by repeat case_decide.
Qed.






(** X15: a blank query, and a query that no waypoint matches, hide the
    results and leave their content as it was. *)
Theorem search_hidden (toLowerCase trim : string → string)
    (g : Graph) (query : string) (old : ResultsElement) :
  trim query = "" ∨ (∀ n, n ∈ nodes g → ¬ matches_query toLowerCase query n) →
  handleSearch toLowerCase trim (buildSearchIndex toLowerCase g) query old
  = {| display := false; innerHTML := innerHTML old |}.
Proof.
  intros Hhide. unfold handleSearch.
  case_bool_decide as Hblank; [done|]. destruct Hhide as [?|Hnone]; [done|].
  rewrite filter_searchIndex, <- fmap_take.
  destruct (filter _ (nodes g)) as [|n' l] eqn:Hf; [done|].
  assert (n' ∈ filter (matches_query toLowerCase query) (nodes g)) as Hin
    by (rewrite Hf; by left).
  apply list_elem_of_filter in Hin as [Hmatch Hin]. by destruct (Hnone n').
Qed.

Lemma search_hidden_witness :
  (trim_ascii "   " = "" ∨
   ∀ n, n ∈ nodes getDefaultGraphData → ¬ matches_query toLowerCase_ascii "   " n) ∧
  handleSearch toLowerCase_ascii trim_ascii
    (buildSearchIndex toLowerCase_ascii getDefaultGraphData) "   "
    {| display := true; innerHTML := [("library", "Library")] |}
  = {| display := false; innerHTML := [("library", "Library")] |}.
Proof.
  assert (trim_ascii "   " = "" ∨
          ∀ n, n ∈ nodes getDefaultGraphData →
               ¬ matches_query toLowerCase_ascii "   " n) as H
    by (left; vm_compute; reflexivity).
  split; [exact H|].
  exact (search_hidden toLowerCase_ascii trim_ascii getDefaultGraphData "   "
           {| display := true; innerHTML := [("library", "Library")] |} H).
Defined.

(** ** Markers *)







(** With two waypoints of the same identifier the view goes to the first
    and the popup that opens is the marker of the second. *)
Example goToLocation_twins :
  goToLocation twinGraph (addMarkers twinGraph) "hall"
  = Some ((13.1950, 77.7060), 1%nat).
Proof. by vm_compute. Qed.

(** ** The reported distance *)







(** ** More connections *)

Lemma walk_more_edges g g' u v m :
  edges g ⊆ edges g' → walk g u v m → walk g' u v m.
Proof.
  intros Hsub. induction 1 as [u|u v t w m (e & He & Hj & Hw) _ IH|u v m m' _ IH Heq].
  - constructor.
  - eapply walk_step; [|done]. exists e. split_and!; [by apply Hsub|done..].
  - by eapply walk_eq.
Qed.

(** X18: connections added to a valid graph, with the waypoints kept,
    never lengthen a route: where a route was found before, one is found
    afterwards, and its reported distance is at most the former one. *)
Theorem more_connections_shorter_routes (g g' : Graph) (s t : string) (r : Route) :
  valid_graph g → valid_graph g' → nodes g' = nodes g → edges g ⊆ edges g' →
  s ∈ ids g → t ∈ ids g → dijkstra g s t = Normal (Some r) →
  ∃ r' d d', dijkstra g' s t = Normal (Some r') ∧
             route_distance r = Fin d ∧ route_distance r' = Fin d' ∧ d' ≤ d.
Proof.
  intros [Hends Hpos] [Hends' Hpos'] Hnodes Hsub Hs Ht Hrun.
  destruct (dijkstra_outcome g s t Hends Hpos Hs Ht)
    as [[Hnone _]|(r0 & _ & x & Hrun0 & _ & _ & _ & _ & _ & _ & _ & _ & Hdist & Hmin)];
    [congruence|].
  assert (r0 = r) as -> by congruence.
  assert (ids g' = ids g) as Hids by (unfold ids; by rewrite Hnodes).
  pose proof (walk_more_edges g g' s t x Hsub (proj1 Hmin)) as Hwalk.
  destruct (dijkstra_outcome g' s t Hends' Hpos')
    as [[_ Hno]|(r' & _ & x' & Hrun' & _ & _ & _ & _ & _ & _ & _ & _ & Hdist' & Hmin')];
    [by rewrite Hids..|by destruct (Hno x)|].
  eexists r', _, _. split_and!; [done|exact Hdist|exact Hdist'|].
  rewrite <- Zle_Qle. apply Qfloor_resp_le.
  pose proof (proj2 Hmin' x Hwalk). lra.
Qed.

Lemma more_connections_shorter_routes_witness :
  valid_graph pathwayGraph ∧ valid_graph shortcutGraph ∧
  nodes shortcutGraph = nodes pathwayGraph ∧ edges pathwayGraph ⊆ edges shortcutGraph ∧
  "quad" ∈ ids pathwayGraph ∧ "pool" ∈ ids pathwayGraph ∧
  ∃ r, dijkstra pathwayGraph "quad" "pool" = Normal (Some r) ∧
  ∃ r' d d', dijkstra shortcutGraph "quad" "pool" = Normal (Some r') ∧
             route_distance r = Fin d ∧ route_distance r' = Fin d' ∧ d' ≤ d.
Proof.
  assert (valid_graph pathwayGraph) as H1 by by_compute.
  assert (valid_graph shortcutGraph) as H2 by by_compute.
  assert (nodes shortcutGraph = nodes pathwayGraph) as H3 by reflexivity.
  assert (edges pathwayGraph ⊆ edges shortcutGraph) as H4.
  { intros e He. apply elem_of_app. by left. }
  assert ("quad" ∈ ids pathwayGraph) as H5 by by_compute.
  assert ("pool" ∈ ids pathwayGraph) as H6 by by_compute.
  split_and!; [assumption..|].
  destruct (dijkstra pathwayGraph "quad" "pool") as [[r|]| |] eqn:H;
    [|by vm_compute in H..].
  exists r. split; [reflexivity|].
  exact (more_connections_shorter_routes pathwayGraph shortcutGraph "quad" "pool" r
           H1 H2 H3 H4 H5 H6 H).
Defined.

(** A connection of negative weight makes the walk along [previous] run
    in a circle: the query does not return. *)
Example negative_weight_hangs :
  endpoints_exist downhillGraph ∧ dijkstra downhillGraph "quad" "gym" = Diverges.
Proof. split; [by_compute|by vm_compute]. Qed.

(** ** The page as a whole *)






Lemma reconstruct_app fuel : ∀ p c acc path,
  reconstruct fuel p c acc = Some path →
  ∃ l, path = l ++ acc ∧ (c ≠ null → l ≠ []).
Proof.
  induction fuel as [|fuel IH]; intros p c acc path Hrun.
  - destruct c; [|done..]. injection Hrun as <-. by exists [].
  - destruct c; [injection Hrun as <-; by exists []|..];
      simpl in Hrun; apply IH in Hrun as (l & -> & _);
      (eexists (l ++ [_]); split; [by rewrite <- app_assoc|by destruct l]).
Qed.

(** The path of a route holds at least the destination. *)
Lemma dijkstra_path_nonempty g s t r :
  dijkstra g s t = Normal (Some r) → path r ≠ [].
Proof.
  unfold dijkstra. destruct (build_adjacency g) as [graph| |]; [|done..].
  cbn [mbind completion_bind]. destruct (is_Infinity _); [done|].
  destruct (reconstruct _ _ _ _) as [l|] eqn:Hrun; [|done].
  destruct (generateSteps g l) as [steps| |]; [|done..].
  cbn [mbind completion_bind mret completion_ret]. intros [= <-]. simpl.
  apply reconstruct_app in Hrun as (l' & -> & Hne).
  rewrite app_nil_r. by apply Hne.
Qed.




(** ** Arbitrary weights *)


Section any_weights.
Context (g : Graph) (graph : gmap string (list Neighbor)) (s : string).
Hypothesis Hends : endpoints_exist g.
Hypothesis Hgraph : ∀ u,
  graph !! u = if decide (u ∈ ids g) then Some (neighbours_of (edges g) u) else None.











End any_weights.





